(** * p-noun: pronoun resolver, reference registry and remote gender cache

    A shallow embedding of [src/index.ts].  JavaScript strings are modelled
    by [string] (a sequence of code units), JavaScript [Map]s by [gmap],
    JavaScript [Set]s by duplicate-free lists in insertion order, and the
    event loop by explicit state passing: every operation takes the state
    of the objects it touches and returns the new one. *)

From Stdlib Require Import ZArith String Ascii List.
From stdpp Require Import base option list gmap strings.

Local Open Scope string_scope.
Local Open Scope list_scope.
Local Open Scope stdpp_scope.
Local Open Scope Z_scope.

(** ** Shared JavaScript vocabulary *)

(** What the runtime's Unicode tables provide: [String.prototype.toLowerCase],
    [String.prototype.toUpperCase] and the test [/^\p{Lu}/u]. *)
Class CaseTables := {
  toLowerCase : string → string;
  toUpperCase : string → string;
  startsWithLu : string → bool;
}.

Definition ascii_lower (c : ascii) : ascii :=
  let n := nat_of_ascii c in
  if ((65 <=? n) && (n <=? 90))%nat then ascii_of_nat (n + 32) else c.

Definition ascii_upper (c : ascii) : ascii :=
  let n := nat_of_ascii c in
  if ((97 <=? n) && (n <=? 122))%nat then ascii_of_nat (n - 32) else c.

Fixpoint string_map (f : ascii → ascii) (s : string) : string :=
  match s with
  | EmptyString => EmptyString
  | String c rest => String (f c) (string_map f rest)
  end.

(** The tables restricted to the ASCII range, where they agree with the
    Unicode ones: only the letters A-Z and a-z have a case. *)
Definition ascii_tables : CaseTables := {|
  toLowerCase := string_map ascii_lower;
  toUpperCase := string_map ascii_upper;
  startsWithLu s :=
    match s with
    | EmptyString => false
    | String c _ => let n := nat_of_ascii c in ((65 <=? n) && (n <=? 90))%nat
    end;
|}.

(** A call either returns a value or throws. *)
Inductive Exn := TypeError.

Inductive Completion (A : Type) :=
  | Normal (v : A)
  | Throw (e : Exn).
Arguments Normal {A} v.
Arguments Throw {A} e.

(** [Array.prototype.indexOf]: position of the first element strictly equal
    to [x], or [-1]. *)
Definition indexOf {A} `{EqDecision A} (x : A) (l : list A) : Z :=
  match list_find (λ y, y = x) l with
  | Some (i, _) => Z.of_nat i
  | None => -1
  end.

(** [l[i]] for an index computed by [indexOf]; out of range is [undefined]. *)
Definition at_index {A} (l : list A) (i : Z) : option A :=
  if i <? 0 then None else l !! Z.to_nat i.

(** Own-property lookup [o[key]] in an object literal. *)
Fixpoint property {A} (key : string) (o : list (string * A)) : option A :=
  match o with
  | [] => None
  | (k, v) :: rest => if String.eqb k key then Some v else property key rest
  end.

(** [Object.values], in insertion order (no key is an integer index). *)
Definition values {A} (o : list (string * A)) : list A := map snd o.

(** ** Pronoun table and resolver *)

Module Resolver.

(** A slot of an [Entry] is [string | symbol]; the only symbols are
    [ORIGINAL] and [NAME]. *)
Inductive Slot :=
  | Literal (w : string)
  | ORIGINAL
  | NAME.

#[export] Instance Slot_eq_dec : EqDecision Slot.
Proof. solve_decision. Defined.

(** The tuple type admits two to five slots, and a remote array may be
    longer: an [Entry] is a list. *)
Abbreviation Entry := (list Slot) (only parsing).

Definition words (ws : list string) : Entry := map Literal ws.

Definition pronouns : list (string * Entry) := [
  ("ae", words ["ae"; "aer"; "aer"; "aers"; "aerself"]);
  ("ey", words ["ey"; "em"; "eir"; "eirs"; "emself"]);
  ("fae", words ["fae"; "faer"; "faer"; "faers"; "faerself"]);
  ("he", words ["he"; "him"; "his"; "his"; "himself"]);
  ("it", words ["it"; "it"; "it"; "its"; "itself"]);
  ("ne", words ["ne"; "nem"; "nir"; "nirs"; "nemself"]);
  ("per", words ["per"; "per"; "pers"; "pers"; "perself"]);
  ("she", words ["she"; "her"; "her"; "hers"; "herself"]);
  ("sie", words ["sie"; "sir"; "hir"; "hirs"; "hirself"]);
  ("they", words ["they"; "them"; "their"; "theirs"; "themself"]);
  ("ve", words ["ve"; "ver"; "vis"; "vers"; "verself"]);
  ("xe", words ["xe"; "xem"; "xyr"; "xyrs"; "xemself"]);
  ("ze", words ["ze"; "hir"; "hir"; "hirs"; "hirself"]);
  ("ze2", words ["ze"; "zir"; "zir"; "zirs"; "zirself"]);
  ("zie", words ["zie"; "zim"; "zir"; "zirs"; "zirself"]);
  ("unknown", [ORIGINAL; ORIGINAL; ORIGINAL; ORIGINAL; ORIGINAL]);
  ("any", [ORIGINAL; ORIGINAL; ORIGINAL; ORIGINAL; ORIGINAL]);
  ("none", [NAME; NAME; NAME; NAME; NAME])
].

Definition pronounDbMap : list (string * string) := [
  ("unspecified", "unknown");
  ("hh", "he");
  ("hi", "he");
  ("hs", "he");
  ("ht", "he");
  ("ih", "it");
  ("ii", "it");
  ("is", "it");
  ("it", "it");
  ("shh", "she");
  ("sh", "she");
  ("si", "she");
  ("st", "she");
  ("th", "they");
  ("ti", "they");
  ("ts", "they");
  ("tt", "they");
  ("any", "any");
  ("other", "unknown");
  ("ask", "unknown");
  ("avoid", "none")
].

(** [mapped ? pronouns[mapped] : pronouns[value]]; a string is truthy when
    it is not empty.  Keys inherited from [Object.prototype] map to
    functions or objects, whose string form is no key of [pronouns]: for
    them the result is [undefined], as it is here. *)
Definition lookupPronouns (value : string) : option Entry :=
  match property value pronounDbMap with
  | Some mapped =>
      if String.eqb mapped "" then property value pronouns
      else property mapped pronouns
  | None => property value pronouns
  end.

Definition ENTRY_FORMATS : list string := ["s"; "o"; "pa"; "pp"; "r"].
Definition PRONOUN_FORMATS : list string := ["n"; "np"; "nr"] ++ ENTRY_FORMATS.

Record PronounData := {
  identity : string;
  pronouns_of : option Entry;
}.

Definition getIdentityInForm (form identity : string) : string :=
  if String.eqb form "np" || String.eqb form "pa" || String.eqb form "pp"
  then identity +:+ "'s"
  else if String.eqb form "nr" || String.eqb form "r"
  then identity +:+ "'s self"
  else identity.

(** How often a word occurs in the table: the number of form-slots that
    hold it, over all entries together, and the number of entries that hold
    it in some slot. *)
Definition slot_count (w : string) : nat :=
  length (filter (λ slot, slot = Literal w) (concat (values pronouns))).

Definition entry_count (w : string) : nat :=
  length (filter (λ p : Entry, Literal w ∈ p) (values pronouns)).

Section WithTables.
Context `{CaseTables}.

(** [pronoun[0].toUpperCase() + pronoun.substring(1)]: on the empty string
    [pronoun[0]] is [undefined] and the method call throws. *)
Definition capitalize (pronoun : string) : Completion string :=
  match pronoun with
  | EmptyString => Throw TypeError
  | String c rest => Normal (toUpperCase (String c EmptyString) +:+ rest)
  end.

Definition getPronounInForm (form : string) (data : PronounData)
    (fallback : string) : Completion string :=
  match pronouns_of data with
  | Some entry =>
      let formIndex := indexOf form ENTRY_FORMATS in
      if bool_decide (formIndex ≠ -1) then
        match at_index entry formIndex with
        | Some (Literal pronoun) =>
            if startsWithLu fallback then capitalize pronoun
            else Normal pronoun
        | Some ORIGINAL => Normal fallback
        | Some NAME => Normal (getIdentityInForm form (identity data))
        | None => Normal fallback
        end
      else Normal fallback
  | None => Normal fallback
  end.

Definition changeGender (form : string) (data : PronounData)
    (fallback : string) : Completion string :=
  if String.eqb form "n" || String.eqb form "np" || String.eqb form "nr"
  then Normal (getIdentityInForm form (identity data))
  else getPronounInForm form data fallback.

Definition inferForm (pronoun : string) : option string :=
  let pronoun := toLowerCase pronoun in
  let options :=
    filter (λ i, i ≠ -1) (map (λ p, indexOf (Literal pronoun) p) (values pronouns)) in
  if bool_decide (length options = 1%nat)
  then i ← options !! 0%nat; at_index ENTRY_FORMATS i
  else None.

End WithTables.

End Resolver.

(** ** Reference registry *)

Module Registry.

(** Elements and listener functions are objects: only their identity counts. *)
Abbreviation PIdElement := nat (only parsing).
Abbreviation NotifyFn := nat (only parsing).

(** [Set.prototype.add] and [Set.prototype.delete] on an insertion-ordered
    set. *)
Definition Set_add {A} `{EqDecision A} (x : A) (s : list A) : list A :=
  if bool_decide (x ∈ s) then s else s ++ [x].

Definition Set_delete {A} `{EqDecision A} (x : A) (s : list A) : list A :=
  filter (λ y, y ≠ x) s.

(** The closures handed to [queueMicrotask]. *)
Inductive Microtask :=
  | NotifyTask (ref : string) (oldElement newElement : option PIdElement)
  | ListenerTask (fn : NotifyFn) (oldElement newElement : option PIdElement).

(** One call of a listener: [fn(oldElement, newElement)]. *)
Abbreviation Call := (nat * (option nat * option nat))%type (only parsing).

(** The manager's two maps, the microtask queue of the event loop and the
    listener calls made so far.  A listener neither touches the manager nor
    queues microtasks; it may throw. *)
Record RefManager := {
  refMap : gmap string (list PIdElement);
  listenerMap : gmap string (list NotifyFn);
  microtasks : list Microtask;
  calls : list Call;
}.

Definition empty : RefManager :=
  {| refMap := ∅; listenerMap := ∅; microtasks := []; calls := [] |}.

Definition queueMicrotask (t : Microtask) (m : RefManager) : RefManager :=
  {| refMap := refMap m; listenerMap := listenerMap m;
     microtasks := microtasks m ++ [t]; calls := calls m |}.

Definition set_refMap (f : gmap string (list PIdElement)) (m : RefManager) :=
  {| refMap := f; listenerMap := listenerMap m;
     microtasks := microtasks m; calls := calls m |}.

Definition set_listenerMap (f : gmap string (list NotifyFn)) (m : RefManager) :=
  {| refMap := refMap m; listenerMap := f;
     microtasks := microtasks m; calls := calls m |}.

(** [refs && refs.values().next().value] *)
Definition get (ref : string) (m : RefManager) : option PIdElement :=
  refs ← refMap m !! ref; head refs.

Definition add (ref : string) (el : PIdElement) (m : RefManager) : RefManager :=
  match refMap m !! ref with
  | Some refs => set_refMap (<[ref := Set_add el refs]> (refMap m)) m
  | None =>
      queueMicrotask (NotifyTask ref None (Some el))
        (set_refMap (<[ref := [el]]> (refMap m)) m)
  end.

Definition remove (ref : string) (el : PIdElement) (m : RefManager) : RefManager :=
  match refMap m !! ref with
  | Some refs =>
      let first := bool_decide (get ref m = Some el) in
      let refs := Set_delete el refs in
      let m :=
        if bool_decide (length refs = 0%nat)
        then set_refMap (delete ref (refMap m)) m
        else set_refMap (<[ref := refs]> (refMap m)) m in
      if first then
        let newEl := get ref m in
        queueMicrotask (NotifyTask ref (Some el) newEl) m
      else m
  | None => m
  end.

Definition on (ref : string) (fn : NotifyFn) (m : RefManager) : RefManager :=
  let m :=
    match listenerMap m !! ref with
    | Some listeners => set_listenerMap (<[ref := Set_add fn listeners]> (listenerMap m)) m
    | None => set_listenerMap (<[ref := [fn]]> (listenerMap m)) m
    end in
  let el := get ref m in
  queueMicrotask (ListenerTask fn None el) m.

Definition off (ref : string) (fn : NotifyFn) (m : RefManager) : RefManager :=
  match listenerMap m !! ref with
  | Some listeners =>
      let listeners := Set_delete fn listeners in
      if bool_decide (length listeners = 0%nat)
      then set_listenerMap (delete ref (listenerMap m)) m
      else set_listenerMap (<[ref := listeners]> (listenerMap m)) m
  | None => m
  end.

Section Listeners.

(** What the listeners do when called: [throws made call] tells whether the
    call [call], made after the calls [made], ends in an exception. *)
Variable throws : list Call → Call → bool.

(** [listeners.forEach(fn => fn(oldElement, newElement))]: the listeners are
    called in insertion order, and an exception out of one of them ends the
    loop.  The result is the calls made, after the calls [made]. *)
Fixpoint forEach (listeners : list NotifyFn)
    (args : option PIdElement * option PIdElement) (made : list Call)
    : list Call :=
  match listeners with
  | [] => []
  | fn :: rest =>
      (fn, args)
      :: (if throws made (fn, args) then []
          else forEach rest args (made ++ [(fn, args)]))
  end.

Definition notify (ref : string) (oldElement newElement : option PIdElement)
    (m : RefManager) : list Call :=
  match listenerMap m !! ref with
  | Some listeners => forEach listeners (oldElement, newElement) (calls m)
  | None => []
  end.

(** One queued closure runs; an exception out of it is reported and the
    event loop goes on to the next one. *)
Definition runMicrotask (m : RefManager) (t : Microtask) : RefManager :=
  let made :=
    match t with
    | NotifyTask ref o n => notify ref o n m
    | ListenerTask fn o n => [(fn, (o, n))]
    end in
  {| refMap := refMap m; listenerMap := listenerMap m;
     microtasks := microtasks m; calls := calls m ++ made |}.

(** The microtask checkpoint at the end of the current synchronous run:
    the queued closures run in the order they were queued. *)
Definition checkpoint (m : RefManager) : RefManager :=
  let m' := foldl runMicrotask m (microtasks m) in
  {| refMap := refMap m'; listenerMap := listenerMap m';
     microtasks := []; calls := calls m' |}.

End Listeners.

(** What one listener was called with, in order. *)
Definition heard (fn : NotifyFn) (m : RefManager)
    : list (option PIdElement * option PIdElement) :=
  map snd (filter (λ c, c.1 = fn) (calls m)).

(** What the two maps hold at rest: no empty set, and sets without
    repetition. *)
Definition settled_sets (m : RefManager) : Prop :=
  map_Forall (λ _ refs, refs ≠ [] ∧ NoDup refs) (refMap m) ∧
  map_Forall (λ _ listeners, listeners ≠ [] ∧ NoDup listeners) (listenerMap m).

End Registry.

(** ** Remote gender cache *)

Module Cache.
Import Resolver.

(** Rejection reasons: the [DOMException] named "AbortError", the two
    [Error]s thrown while reading a response, the [Error] of
    [_loadGender], a failed transport and an unreadable body. *)
Inductive Error :=
  | AbortError
  | UnknownGenderFormat
  | GenderHttpError (status : nat) (statusText : string)
  | UnknownGenderSource (src : string)
  | TransportFailure
  | BodyError.

#[export] Instance Error_eq_dec : EqDecision Error.
Proof. solve_decision. Defined.

Record Gender := { pronouns : Entry }.

Inductive PromiseState :=
  | Pending
  | Fulfilled (gender : Gender)
  | Rejected (error : Error).

(** What [await response.json()] gives, as far as [fetch] looks at it. *)
Inductive Body :=
  | NotAnObject
  | NoPronouns
  | PronounsString (respPronouns : string)
  | PronounsArray (respPronouns : list (option string))
  | PronounsOther.

Record Response := {
  ok : bool;
  status : nat;
  statusText : string;
  json : Body;
}.

(** The [then] handler of the transport promise. *)
Definition onResponse (response : Response) : PromiseState :=
  if ok response then
    match json response with
    | NotAnObject => Rejected BodyError
    | PronounsString respPronouns =>
        match lookupPronouns respPronouns with
        | Some pronouns => Fulfilled {| pronouns := pronouns |}
        | None => Rejected UnknownGenderFormat
        end
    | PronounsArray respPronouns =>
        if (2 <=? length respPronouns)%nat && forallb (λ p, bool_decide (is_Some p)) respPronouns
        then Fulfilled {| pronouns := words (omap id respPronouns) |}
        else Rejected UnknownGenderFormat
    | NoPronouns | PronounsOther => Rejected UnknownGenderFormat
    end
  else Rejected (GenderHttpError (status response) (statusText response)).

(** [AbortControllerMux]: the counter, the state of the inherited signal and
    the number of times [super.abort] ran. *)
Record AbortControllerMux := {
  _count : Z;
  signal_aborted : bool;
  super_aborts : nat;
}.

Definition new_AbortControllerMux : AbortControllerMux :=
  {| _count := 1; signal_aborted := false; super_aborts := 0 |}.

Definition abort (this : AbortControllerMux) : AbortControllerMux :=
  let count := _count this - 1 in
  if count <=? 0
  then {| _count := count; signal_aborted := true;
          super_aborts := S (super_aborts this) |}
  else {| _count := count; signal_aborted := signal_aborted this;
          super_aborts := super_aborts this |}.

Definition bump (this : AbortControllerMux) : AbortControllerMux :=
  {| _count := _count this + 1; signal_aborted := signal_aborted this;
     super_aborts := super_aborts this |}.

(** The platform's [fetch(uri, {signal})] call. *)
Inductive Transport :=
  | InFlight
  | Responded (response : Response)
  | Failed
  | Aborted.

(** [promise = fetch(...).then(...)] follows the transport. *)
Definition promiseOf (t : Transport) : PromiseState :=
  match t with
  | InFlight => Pending
  | Responded response => onResponse response
  | Failed => Rejected TransportFailure
  | Aborted => Rejected AbortError
  end.

(** A settled promise stays as it is. *)
Definition settleWith (new old : PromiseState) : PromiseState :=
  match old with
  | Pending => new
  | _ => old
  end.

(** The objects one run of the [else] branch of [fetch] allocates: the
    multiplexer, the transport request with its [promise], [abortPromise]
    and the [Promise.race] of the two. *)
Record Request := {
  uri : string;
  abortMux : AbortControllerMux;
  transport : Transport;
  abortPromise : PromiseState;
  raced : PromiseState;
}.

(** Caller signals are objects, known by a number.  [genderRequests] holds,
    for a uri, the position in [requests] of the pair [promise, abortMux];
    [requests] is also the list of transport requests made so far;
    [listeners] are the "abort" listeners, in the order they were added,
    each with the request its closure captured. *)
Record World := {
  genderRequests : gmap string nat;
  requests : list Request;
  listeners : list (nat * nat);
  aborted_signals : gset nat;
  next_signal : nat;
}.

Definition init : World :=
  {| genderRequests := ∅; requests := []; listeners := [];
     aborted_signals := ∅; next_signal := 0 |}.

Definition set_requests (rs : list Request) (w : World) : World :=
  {| genderRequests := genderRequests w; requests := rs;
     listeners := listeners w; aborted_signals := aborted_signals w;
     next_signal := next_signal w |}.

(** What a caller of [fetch] holds: [promise] itself, or the race. *)
Inductive PromiseRef :=
  | SharedPromise (r : nat)
  | RacePromise (r : nat).

Definition stateOf (p : PromiseRef) (w : World) : PromiseState :=
  match p with
  | SharedPromise r => from_option (λ q, promiseOf (transport q)) Pending (requests w !! r)
  | RacePromise r => from_option raced Pending (requests w !! r)
  end.

Definition newRequest (uri : string) : Request :=
  {| uri := uri; abortMux := new_AbortControllerMux; transport := InFlight;
     abortPromise := Pending; raced := Pending |}.

Definition bumpRequest (q : Request) : Request :=
  {| uri := uri q; abortMux := bump (abortMux q); transport := transport q;
     abortPromise := abortPromise q; raced := raced q |}.

(** [GenderCache.fetch] *)
Definition fetch (uri : string) (signal : nat) (w : World) : PromiseRef * World :=
  match genderRequests w !! uri with
  | Some r => (SharedPromise r, set_requests (alter bumpRequest r (requests w)) w)
  | None =>
      let r := length (requests w) in
      (RacePromise r,
       {| genderRequests := <[uri := r]> (genderRequests w);
          requests := requests w ++ [newRequest uri];
          listeners := listeners w ++ [(signal, r)];
          aborted_signals := aborted_signals w;
          next_signal := next_signal w |})
  end.

(** The listener of [fetch]: [abortMux.abort(); reject(...)].  When
    [super.abort] turns the multiplexer's signal on, a transport still in
    flight is aborted and [promise] rejects. *)
Definition onAbort (q : Request) : Request :=
  let mux := abort (abortMux q) in
  let fired := negb (signal_aborted (abortMux q)) && signal_aborted mux in
  let transport :=
    match transport q with
    | InFlight => if fired then Aborted else InFlight
    | t => t
    end in
  {| uri := uri q; abortMux := mux; transport := transport;
     abortPromise := settleWith (Rejected AbortError) (abortPromise q);
     raced := settleWith (Rejected AbortError)
                (settleWith (promiseOf transport) (raced q)) |}.

(** The listeners added to [signal] run in the order they were added. *)
Definition runListeners (signal : nat) (ls : list (nat * nat))
    (rs : list Request) : list Request :=
  foldl (λ rs l, if bool_decide (l.1 = signal) then alter onAbort l.2 rs else rs)
    rs ls.

(** A caller's signal fires its "abort" event, once. *)
Definition fire (signal : nat) (w : World) : World :=
  if bool_decide (signal ∈ aborted_signals w) then w
  else
    let rs := runListeners signal (listeners w) (requests w) in
    {| genderRequests := genderRequests w; requests := rs;
       listeners := listeners w;
       aborted_signals := {[signal]} ∪ aborted_signals w;
       next_signal := next_signal w |}.

(** The transport of request [r] settles, if it is still in flight. *)
Definition complete (outcome : Transport) (q : Request) : Request :=
  match transport q with
  | InFlight =>
      {| uri := uri q; abortMux := abortMux q; transport := outcome;
         abortPromise := abortPromise q;
         raced := settleWith (promiseOf outcome) (raced q) |}
  | _ => q
  end.

Definition settle (r : nat) (outcome : Transport) (w : World) : World :=
  set_requests (alter (complete outcome) r (requests w)) w.

(** What can happen to a cache, and the worlds that can arise. *)
Inductive Event :=
  | Fetch (uri : string) (signal : nat)
  | Fire (signal : nat)
  | Settle (r : nat) (outcome : Transport).

Definition step (w : World) (e : Event) : World :=
  match e with
  | Fetch uri signal => (fetch uri signal w).2
  | Fire signal => fire signal w
  | Settle r outcome => settle r outcome w
  end.

Definition run (es : list Event) (w : World) : World := foldl step w es.

Inductive reachable : World → Prop :=
  | reachable_init : reachable init
  | reachable_step w e : reachable w → reachable (step w e).

(** Every listener closed over a request that exists. *)
Definition listeners_in_range (w : World) : Prop :=
  Forall (λ l, (l.2 < length (requests w))%nat) (listeners w).

(** ** The identity element, as far as loading goes *)

Inductive DomEvent :=
  | genderupdated (detail : PronounData)
  | error (e : Error).

Record PIdElement := {
  _value : string;
  loadedPronouns : option Entry;
  _abortController : option nat;
  dispatched : list DomEvent;
  awaited : list PromiseRef;
}.

Definition pronounData (this : PIdElement) : PronounData :=
  {| identity := _value this; pronouns_of := loadedPronouns this |}.

Definition dispatchEvent (e : DomEvent) (this : PIdElement) : PIdElement :=
  {| _value := _value this; loadedPronouns := loadedPronouns this;
     _abortController := _abortController this;
     dispatched := dispatched this ++ [e]; awaited := awaited this |}.

Definition set_loadedPronouns (p : option Entry) (this : PIdElement) : PIdElement :=
  {| _value := _value this; loadedPronouns := p;
     _abortController := _abortController this;
     dispatched := dispatched this; awaited := awaited this |}.

Definition set_abortController (c : option nat) (this : PIdElement) : PIdElement :=
  {| _value := _value this; loadedPronouns := loadedPronouns this;
     _abortController := c;
     dispatched := dispatched this; awaited := awaited this |}.

Definition await (p : PromiseRef) (this : PIdElement) : PIdElement :=
  {| _value := _value this; loadedPronouns := loadedPronouns this;
     _abortController := _abortController this;
     dispatched := dispatched this; awaited := awaited this ++ [p] |}.

Definition _emitGenderError (e : Error) (this : PIdElement) : PIdElement :=
  dispatchEvent (error e) this.

Definition _cancelGender (st : PIdElement * World) : PIdElement * World :=
  let (this, w) := st in
  match _abortController this with
  | Some signal => (set_abortController None this, fire signal w)
  | None => (this, w)
  end.

(** [new AbortController()]: a signal no one has seen. *)
Definition new_AbortController (w : World) : nat * World :=
  (next_signal w,
   {| genderRequests := genderRequests w; requests := requests w;
      listeners := listeners w; aborted_signals := aborted_signals w;
      next_signal := S (next_signal w) |}).

Definition _loadGender (src : string) (st : PIdElement * World)
    : PIdElement * World :=
  let (this, w) := _cancelGender st in
  match String.index 0 ":" src with
  | None =>
      let gender :=
        match lookupPronouns src with
        | Some gender => Some gender
        | None => property "unknown" Resolver.pronouns
        end in
      let this := set_loadedPronouns gender this in
      (dispatchEvent (genderupdated (pronounData this)) this, w)
  | Some colonIndex =>
      let provider := substring 0 colonIndex src in
      let this :=
        if String.eqb provider "" then _emitGenderError (UnknownGenderSource src) this
        else this in
      let (signal, w) := new_AbortController w in
      let this := set_abortController (Some signal) this in
      let (p, w) := fetch src signal w in
      (await p this, w)
  end.

(** The two handlers [_loadGender] passes to [then], run once the awaited
    promise has settled. *)
Definition onSettled (s : PromiseState) (this : PIdElement) : PIdElement :=
  match s with
  | Pending => this
  | Fulfilled gender =>
      let this := set_loadedPronouns (Some (pronouns gender)) this in
      dispatchEvent (genderupdated (pronounData this)) this
  | Rejected AbortError => this
  | Rejected e => _emitGenderError e this
  end.

Definition new_PIdElement : PIdElement :=
  {| _value := ""; loadedPronouns := None; _abortController := None;
     dispatched := []; awaited := [] |}.

End Cache.

(** ** The pronoun element, as far as rendering goes *)

Module Noun.
Import Resolver.

Record PNounElement := {
  _form : string;
  _fallback : string;
  _value : string;
  innerText : string;
  pronounData : option PronounData;
  isConnected : bool;
}.

(** [this.value = this.innerText = text] *)
Definition render (text : string) (this : PNounElement) : PNounElement :=
  {| _form := _form this; _fallback := _fallback this; _value := text;
     innerText := text; pronounData := pronounData this;
     isConnected := isConnected this |}.

Definition set_pronounData (data : option PronounData) (this : PNounElement)
    : PNounElement :=
  {| _form := _form this; _fallback := _fallback this; _value := _value this;
     innerText := innerText this; pronounData := data;
     isConnected := isConnected this |}.

(** The getter [form]: the attribute value when it is a known code. *)
Definition form (this : PNounElement) : option string :=
  if bool_decide (_form this ∈ PRONOUN_FORMATS) then Some (_form this) else None.

Section WithTables.
Context `{CaseTables}.

(** [this._form || inferForm(this._fallback)]: the empty string is falsy. *)
Definition chosenForm (this : PNounElement) : option string :=
  if String.eqb (_form this) "" then inferForm (_fallback this)
  else Some (_form this).

Definition updatePronouns (this : PNounElement) : Completion PNounElement :=
  if isConnected this then
    match chosenForm this, pronounData this with
    | Some form, Some data =>
        if String.eqb form "" then Normal (render (_fallback this) this)
        else
          match changeGender form data (_fallback this) with
          | Normal text => Normal (render text this)
          | Throw e => Throw e
          end
    | _, _ => Normal (render (_fallback this) this)
    end
  else Normal this.

(** [onGenderChanged]: take the event's detail and render. *)
Definition onGenderChanged (detail : PronounData) (this : PNounElement)
    : Completion PNounElement :=
  updatePronouns (set_pronounData (Some detail) this).

End WithTables.

End Noun.

(** * Properties *)

Import Resolver.
Import Cache.

(** ** Arrays *)

Section Arrays.
Context {A : Type} `{EqDecision A}.
Implicit Types (x : A) (l : list A).

Lemma indexOf_absent x l : x ∉ l → indexOf x l = -1.
Proof.
  intros Hx. unfold indexOf.
  destruct (list_find (λ y, y = x) l) as [[i y]|] eqn:E; [|done].
  apply list_find_Some in E as (Hi & -> & _).
  exfalso. apply Hx. by eapply list_elem_of_lookup_2.
Qed.

Lemma indexOf_first x l :
  x ∈ l →
  ∃ i : nat, indexOf x l = Z.of_nat i ∧ l !! i = Some x ∧
             ∀ j : nat, (j < i)%nat → l !! j ≠ Some x.
Proof.
  intros Hx. unfold indexOf.
  destruct (list_find (λ y, y = x) l) as [[i y]|] eqn:E.
  - apply list_find_Some in E as (Hi & -> & Hlt).
    exists i. split_and!; [done..|].
    intros j Hj Hl. by apply (Hlt j x).
  - apply list_find_None in E. rewrite Forall_forall in E.
    by destruct (E x Hx).
Qed.

Lemma indexOf_found_iff x l : indexOf x l ≠ -1 ↔ x ∈ l.
Proof.
  split.
  - intros Hi. destruct (decide (x ∈ l)) as [|Hn]; [done|].
    by rewrite indexOf_absent in Hi.
  - intros (i & -> & _)%indexOf_first. lia.
Qed.

Lemma at_index_of_nat l (i : nat) : at_index l (Z.of_nat i) = l !! i.
Proof.
  unfold at_index. destruct (Z.ltb_spec (Z.of_nat i) 0); [lia|].
  by rewrite Nat2Z.id.
Qed.

(** A value that occurs at most once occurs at one position only. *)
Lemma once_same_position x l (i j : nat) :
  (length (filter (λ y, y = x) l) ≤ 1)%nat →
  l !! i = Some x → l !! j = Some x → i = j.
Proof.
  revert i j. induction l as [|y l IH]; intros i j Hc Hi Hj; [done|].
  rewrite filter_cons in Hc.
  destruct i as [|i], j as [|j]; simpl in *; simplify_eq; try done.
  - rewrite decide_True in Hc by done. simpl in Hc.
    apply list_elem_of_lookup_2 in Hj.
    assert (x ∈ filter (λ y, y = x) l) as Hin by by apply list_elem_of_filter.
    destruct (filter (λ y, y = x) l); [by apply elem_of_nil in Hin|simpl in Hc; lia].
  - rewrite decide_True in Hc by done. simpl in Hc.
    apply list_elem_of_lookup_2 in Hi.
    assert (x ∈ filter (λ y, y = x) l) as Hin by by apply list_elem_of_filter.
    destruct (filter (λ y, y = x) l); [by apply elem_of_nil in Hin|simpl in Hc; lia].
  - f_equal. apply IH; [|done..].
    destruct (decide (y = x)); simpl in Hc; lia.
Qed.

Lemma filter_eq_nil_absent x l :
  length (filter (λ y, y = x) l) = 0%nat → x ∉ l.
Proof.
  intros Hc Hx.
  assert (x ∈ filter (λ y, y = x) l) as Hin by by apply list_elem_of_filter.
  destruct (filter (λ y, y = x) l); [by apply elem_of_nil in Hin|done].
Qed.

Lemma filter_eq_pos_present x l :
  x ∈ l → (1 ≤ length (filter (λ y, y = x) l))%nat.
Proof.
  intros Hx.
  assert (x ∈ filter (λ y, y = x) l) as Hin by by apply list_elem_of_filter.
  destruct (filter (λ y, y = x) l); [by apply elem_of_nil in Hin|simpl; lia].
Qed.

End Arrays.

(** ** Pronoun table and resolver *)

Section Tables.
Implicit Types (tbl : list Entry) (x : Slot) (p : Entry).

Lemma options_length tbl x :
  length (filter (λ i, i ≠ -1) (map (indexOf x) tbl))
  = length (filter (λ p, x ∈ p) tbl).
Proof.
  induction tbl as [|p tbl IH]; [done|].
  simpl map. rewrite !filter_cons.
  destruct (decide (x ∈ p)) as [Hx|Hx].
  - rewrite decide_True by by apply indexOf_found_iff. simpl. by rewrite IH.
  - rewrite decide_False; [done|]. by rewrite indexOf_found_iff.
Qed.

Lemma options_single tbl x p :
  filter (λ p, x ∈ p) tbl = [p] →
  filter (λ i, i ≠ -1) (map (indexOf x) tbl) = [indexOf x p].
Proof.
  induction tbl as [|q tbl IH]; [done|].
  simpl map. rewrite !filter_cons.
  destruct (decide (x ∈ q)) as [Hx|Hx].
  - rewrite decide_True by by apply indexOf_found_iff.
    intros [= -> Hnil]. f_equal.
    pose proof (options_length tbl x) as Hlen. rewrite Hnil in Hlen.
    by apply nil_length_inv.
  - rewrite decide_False; [done|]. by rewrite indexOf_found_iff.
Qed.

Lemma slots_none tbl x :
  length (filter (λ y, y = x) (concat tbl)) = 0%nat →
  filter (λ p, x ∈ p) tbl = [].
Proof.
  intros Hc. apply filter_eq_nil_absent in Hc.
  induction tbl as [|q tbl IH]; [done|].
  rewrite filter_cons. simpl in Hc.
  rewrite decide_False by (intros Hx; apply Hc, elem_of_app; by left).
  apply IH. intros Hx. apply Hc, elem_of_app. by right.
Qed.

(** A slot value held by one slot of the whole table lies in one entry, and
    [indexOf] finds it there. *)
Lemma unique_slot tbl x p (i : nat) :
  length (filter (λ y, y = x) (concat tbl)) = 1%nat →
  p ∈ tbl → p !! i = Some x →
  filter (λ p, x ∈ p) tbl = [p] ∧ indexOf x p = Z.of_nat i.
Proof.
  induction tbl as [|q tbl IH]; intros Hc Hp Hi; [by apply elem_of_nil in Hp|].
  change (concat (q :: tbl)) with (q ++ concat tbl) in Hc.
  rewrite filter_app, length_app in Hc.
  rewrite filter_cons.
  assert (x ∈ p) as Hxp by by eapply list_elem_of_lookup_2.
  destruct (decide (x ∈ q)) as [Hxq|Hxq].
  - pose proof (filter_eq_pos_present x q Hxq) as Hq.
    assert (length (filter (λ y, y = x) (concat tbl)) = 0%nat) as H0 by lia.
    apply elem_of_cons in Hp as [->|Hp].
    + rewrite (slots_none _ _ H0). split; [done|].
      destruct (indexOf_first x q Hxq) as (j & -> & Hj & _).
      f_equal. apply (once_same_position x q); [lia|done..].
    + exfalso. apply filter_eq_nil_absent in H0. apply H0.
      apply list_elem_of_In, in_concat. exists p.
      split; by apply list_elem_of_In.
  - apply elem_of_cons in Hp as [->|Hp]; [done|].
    apply IH; [|done..].
    destruct (filter (λ y, y = x) q) as [|y l] eqn:E; [exact Hc|].
    exfalso.
    assert (y ∈ filter (λ y, y = x) q) as Hin by (rewrite E; left).
    apply list_elem_of_filter in Hin as [-> Hin]. done.
Qed.

Lemma table_entries_full p :
  p ∈ values Resolver.pronouns → length p = 5%nat.
Proof.
  revert p. apply Forall_forall. by repeat constructor.
Qed.

Lemma entry_format_defined p x (i : nat) :
  p ∈ values Resolver.pronouns → p !! i = Some x → is_Some (ENTRY_FORMATS !! i).
Proof.
  intros Hp%table_entries_full Hi%lookup_lt_Some.
  apply lookup_lt_is_Some. simpl. lia.
Qed.

End Tables.

Section Resolution.
Context `{CaseTables}.

Lemma inferForm_unfold (sample : string) :
  inferForm sample =
    let options :=
      filter (λ i, i ≠ -1)
        (map (indexOf (Literal (toLowerCase sample))) (values Resolver.pronouns)) in
    if bool_decide (length options = 1%nat)
    then options !! 0%nat ≫= at_index ENTRY_FORMATS
    else None.
Proof. reflexivity. Qed.

Lemma inferForm_ambiguous (sample : string) :
  entry_count (toLowerCase sample) ≠ 1%nat → inferForm sample = None.
Proof.
  intros Hn. rewrite inferForm_unfold. cbv zeta.
  rewrite options_length. by rewrite bool_decide_eq_false_2.
Qed.

Lemma inferForm_single (sample : string) (p : Entry) :
  filter (λ p : Entry, Literal (toLowerCase sample) ∈ p) (values Resolver.pronouns) = [p] →
  inferForm sample = at_index ENTRY_FORMATS (indexOf (Literal (toLowerCase sample)) p).
Proof.
  intros Hp. rewrite inferForm_unfold. cbv zeta.
  rewrite (options_single _ _ _ Hp). by rewrite bool_decide_eq_true_2.
Qed.

(** Away from the one throwing path the pronoun forms are defined. *)
Lemma getPronounInForm_defined (form : string) (data : PronounData) (fallback : string) :
  (∀ entry, pronouns_of data = Some entry → Literal "" ∉ entry) →
  ∃ text, getPronounInForm form data fallback = Normal text.
Proof.
  intros Hne. unfold getPronounInForm.
  destruct (pronouns_of data) as [entry|]; [|by eauto].
  case_bool_decide; [|by eauto].
  destruct (at_index entry _) as [[pronoun| |]|] eqn:E; [|by eauto..].
  destruct (startsWithLu fallback); [|by eauto].
  destruct pronoun as [|c rest]; [|simpl; by eauto].
  exfalso. apply (Hne entry eq_refl).
  unfold at_index in E. case_match; [done|].
  by eapply list_elem_of_lookup_2.
Qed.

Lemma changeGender_defined (form : string) (data : PronounData) (fallback : string) :
  (∀ entry, pronouns_of data = Some entry → Literal "" ∉ entry) →
  ∃ text, changeGender form data fallback = Normal text.
Proof.
  intros Hne. unfold changeGender. case_match; [by eauto|].
  by apply getPronounInForm_defined.
Qed.

Lemma getPronounInForm_missing (form identity fallback : string) :
  getPronounInForm form {| identity := identity; pronouns_of := None |} fallback
  = Normal fallback.
Proof. reflexivity. Qed.

Lemma getPronounInForm_unrecognized (form : string) (data : PronounData) (fallback : string) :
  form ∉ ENTRY_FORMATS → getPronounInForm form data fallback = Normal fallback.
Proof.
  intros Hf. unfold getPronounInForm. destruct (pronouns_of data); [|done].
  rewrite bool_decide_eq_false_2; [done|].
  by rewrite indexOf_found_iff.
Qed.

End Resolution.

(** C6, as stated, fails: "her" lies in two slots of the "she" entry and of
    no other entry, and [inferForm] answers the object form for it. *)
Lemma inferForm_her_is_object :
  ¬ (∀ sample : string,
       (2 ≤ slot_count (toLowerCase (CaseTables := ascii_tables) sample))%nat →
       inferForm (H := ascii_tables) sample = None).
Proof.
  intros Hclaim. specialize (Hclaim "her").
  assert (inferForm (H := ascii_tables) "her" = Some "o") as Ho by reflexivity.
  rewrite Hclaim in Ho; [done|].
  vm_compute. lia.
Qed.

(** C6, amended: [inferForm] lower-cases the sample and counts entries, not
    slots.  It returns absent whenever the word lies in no entry or in two
    or more distinct entries of the table; when the word lies in exactly
    one entry it returns the form of the first slot of that entry holding
    it; in particular it returns the unique form when the word lies in
    exactly one slot of the whole table. *)
Theorem inferForm_counts_entries `{CaseTables} (sample : string) :
  let w := toLowerCase sample in
  (entry_count w ≠ 1%nat → inferForm sample = None) ∧
  (entry_count w = 1%nat →
     ∃ (p : Entry) (i : nat) (form : string),
       p ∈ values Resolver.pronouns ∧ p !! i = Some (Literal w) ∧
       (∀ j : nat, (j < i)%nat → p !! j ≠ Some (Literal w)) ∧
       ENTRY_FORMATS !! i = Some form ∧ inferForm sample = Some form) ∧
  (slot_count w = 1%nat →
     ∀ (p : Entry) (i : nat),
       p ∈ values Resolver.pronouns → p !! i = Some (Literal w) →
       ∃ form : string, ENTRY_FORMATS !! i = Some form ∧ inferForm sample = Some form).
Proof.
  intros w. split_and!.
  - apply inferForm_ambiguous.
  - unfold entry_count. intros Hone.
    destruct (filter _ (values Resolver.pronouns)) as [|p [|??]] eqn:E; try done.
    assert (p ∈ filter (λ p : Entry, Literal w ∈ p) (values Resolver.pronouns)) as Hp
      by (rewrite E; left).
    apply list_elem_of_filter in Hp as [Hw Hp].
    destruct (indexOf_first _ _ Hw) as (i & Hidx & Hi & Hfirst).
    destruct (entry_format_defined p _ i Hp Hi) as [form Hform].
    exists p, i, form. split_and!; try done.
    rewrite (inferForm_single sample p E). fold w.
    by rewrite Hidx, at_index_of_nat.
  - intros Hone p i Hp Hi.
    destruct (unique_slot _ _ p i Hone Hp Hi) as [E Hidx].
    destruct (entry_format_defined p _ i Hp Hi) as [form Hform].
    exists form. split; [done|].
    rewrite (inferForm_single sample p E). fold w.
    by rewrite Hidx, at_index_of_nat.
Qed.

Lemma inferForm_counts_entries_witness :
  entry_count "she" = 1%nat ∧ slot_count "she" = 1%nat ∧
  inferForm (H := ascii_tables) "She" = Some "s".
Proof.
  split; [reflexivity|]. split; [reflexivity|].
  destruct (inferForm_counts_entries (H := ascii_tables) "She") as (_ & _ & Hslot).
  destruct (Hslot eq_refl (words ["she"; "her"; "her"; "hers"; "herself"]) 0%nat)
    as (form & Hform & ->).
  - vm_compute. do 7 right. left.
  - reflexivity.
  - simpl in Hform. congruence.
Defined.

(** C7 fails at an entry with an empty literal, which a remote tuple can
    bring in: [pronoun[0]] is undefined and [changeGender] throws. *)
Theorem changeGender_throws_on_empty_literal :
  onResponse
    {| ok := true; status := 200; statusText := "OK";
       json := PronounsArray [Some ""; Some "them"] |}
    = Fulfilled {| Cache.pronouns := words [""; "them"] |} ∧
  changeGender (H := ascii_tables) "s"
    {| identity := "Sam"; pronouns_of := Some (words [""; "them"]) |} "She"
    = Throw TypeError.
Proof. split; reflexivity. Qed.

(** C8: the all-[ORIGINAL] entries "any" and "unknown" give back the
    fallback for each of the forms s, o, pa, pp and r, and the all-[NAME]
    entry "none" turns form "pa" for the identity "Sam" into "Sam's". *)
Theorem sentinel_slots_resolve `{CaseTables} :
  (∀ key form identity fallback : string,
     key ∈ ["any"; "unknown"] → form ∈ ENTRY_FORMATS →
     changeGender form
       {| identity := identity; pronouns_of := property key Resolver.pronouns |}
       fallback
     = Normal fallback) ∧
  changeGender "pa"
    {| identity := "Sam"; pronouns_of := property "none" Resolver.pronouns |} "his"
  = Normal "Sam's".
Proof.
  split; [|reflexivity].
  intros key form identity fallback Hkey Hform.
  repeat (apply elem_of_cons in Hkey as [->|Hkey]);
    [| |by apply elem_of_nil in Hkey];
    repeat (apply elem_of_cons in Hform as [->|Hform]);
    first [reflexivity | by apply elem_of_nil in Hform].
Qed.

Lemma sentinel_slots_resolve_witness :
  changeGender (H := ascii_tables) "pp"
    {| identity := "Sam"; pronouns_of := property "any" Resolver.pronouns |} "Hers"
  = Normal "Hers".
Proof.
  apply (proj1 (sentinel_slots_resolve (H := ascii_tables))).
  - left.
  - do 3 right. left.
Defined.

(** ** Reference registry *)

Section RegistryFacts.
Import Registry.
Variable throws : list (nat * (option nat * option nat)) → nat * (option nat * option nat) → bool.
Implicit Types (m : RefManager) (q : list Microtask) (t : Microtask)
  (ls : list nat) (args : option nat * option nat)
  (made : list (nat * (option nat * option nat))).

Lemma runMicrotask_listenerMap m t :
  listenerMap (runMicrotask throws m t) = listenerMap m.
Proof. reflexivity. Qed.

Lemma run_queue_listenerMap m q :
  listenerMap (foldl (runMicrotask throws) m q) = listenerMap m.
Proof. revert m. induction q as [|t q IH]; intros m; [done|]. simpl. by rewrite IH. Qed.

(** Running queued closures reads the listeners and the calls made so far
    and appends calls; the registrations and the queue itself play no
    part. *)
Lemma run_queue_calls m1 m2 q :
  listenerMap m1 = listenerMap m2 → calls m1 = calls m2 →
  calls (foldl (runMicrotask throws) m1 q) = calls (foldl (runMicrotask throws) m2 q).
Proof.
  revert m1 m2. induction q as [|t q IH]; intros m1 m2 Hl Hc; [done|].
  simpl. apply IH; [done|].
  destruct t; simpl; unfold notify; by rewrite ?Hl, Hc.
Qed.

(** [forEach] calls the listeners of a prefix of the set, in order. *)
Lemma forEach_take ls args made :
  ∃ n : nat, forEach throws ls args made = map (λ fn, (fn, args)) (take n ls).
Proof.
  revert made. induction ls as [|fn ls IH]; intros made; [by exists 0%nat|].
  simpl. destruct (throws made (fn, args)).
  - by exists 1%nat.
  - destruct (IH (made ++ [(fn, args)])) as [n ->]. by exists (S n).
Qed.

(** It reaches a listener when none of those before it throws. *)
Lemma forEach_reaches (before after : list nat) (fn : nat) args made :
  (∀ made' g, g ∈ before → throws made' (g, args) = false) →
  ∃ n : nat,
    forEach throws (before ++ fn :: after) args made
    = map (λ fn, (fn, args)) (take n (before ++ fn :: after)) ∧
    fn ∈ take n (before ++ fn :: after).
Proof.
  revert made. induction before as [|g before IH]; intros made Hquiet.
  - destruct (forEach_take (fn :: after) args made) as [n Hn].
    destruct n as [|n]; [done|]. exists (S n). split; [done|]. left.
  - simpl. rewrite (Hquiet made g) by left.
    destruct (IH (made ++ [(g, args)])) as (n & -> & Hin).
    { intros made' g' Hg'. apply Hquiet. by right. }
    exists (S n). split; [done|]. by right.
Qed.

(** A listener registered once is called once by a loop that calls all. *)
Lemma notified_once (fn : NotifyFn) (ls : list NotifyFn) (o n : option PIdElement) :
  NoDup ls → fn ∈ ls →
  map snd (filter (λ c : Call, c.1 = fn) (map (λ f, (f, (o, n))) ls)) = [(o, n)].
Proof.
  induction ls as [|f ls IH]; intros Hnd Hin; [by apply elem_of_nil in Hin|].
  apply NoDup_cons in Hnd as [Hf Hnd]. simpl map at 2. rewrite filter_cons. simpl.
  destruct (decide (f = fn)) as [->|Hne].
  - simpl. f_equal.
    assert (filter (λ c : Call, c.1 = fn) (map (λ f, (f, (o, n))) ls) = []) as ->; [|done].
    clear IH Hnd Hin. induction ls as [|g ls IH]; [done|].
    simpl map. rewrite filter_cons. simpl.
    rewrite decide_False by (intros ->; apply Hf; left).
    apply IH. intros Hin. apply Hf. by right.
  - apply IH; [done|]. by apply elem_of_cons in Hin as [->|Hin].
Qed.

Lemma not_notified (fn : nat) ls args :
  fn ∉ ls →
  map snd (filter (λ c : nat * (option nat * option nat), c.1 = fn)
             (map (λ f, (f, args)) ls)) = [].
Proof.
  induction ls as [|g ls IH]; intros Hf; [done|].
  simpl map at 2. rewrite filter_cons. simpl.
  rewrite decide_False by (intros ->; apply Hf; left).
  apply IH. intros Hin. apply Hf. by right.
Qed.

(** One notification calls a listener at most once, and once when no
    listener before it throws. *)
Lemma forEach_heard_at_most_once (fn : nat) ls args made :
  NoDup ls →
  let h := map snd (filter (λ c : nat * (option nat * option nat), c.1 = fn)
                      (forEach throws ls args made)) in
  h = [] ∨ h = [args].
Proof.
  intros Hnd. destruct (forEach_take ls args made) as [n ->]. cbv zeta.
  destruct (decide (fn ∈ take n ls)) as [Hin|Hin].
  - right. destruct args as [o n']. apply notified_once; [|done].
    by eapply sublist_NoDup; [|apply sublist_take].
  - left. by apply not_notified.
Qed.

Lemma forEach_heard_once (before after : list nat) (fn : nat) args made :
  NoDup (before ++ fn :: after) →
  (∀ made' g, g ∈ before → throws made' (g, args) = false) →
  map snd (filter (λ c : nat * (option nat * option nat), c.1 = fn)
             (forEach throws (before ++ fn :: after) args made)) = [args].
Proof.
  intros Hnd Hquiet.
  destruct (forEach_reaches before after fn args made Hquiet) as (n & -> & Hin).
  destruct args as [o n']. apply notified_once; [|done].
  by eapply sublist_NoDup; [|apply sublist_take].
Qed.

(** What the three calls leave behind: [B] alone under [k], and two queued
    notifications. *)
Lemma add_add_remove_state m (k : string) (A B : PIdElement) :
  refMap m !! k = None → A ≠ B →
  let m' := remove k A (add k B (add k A m)) in
  refMap m' = <[k := [B]]> (refMap m) ∧
  listenerMap m' = listenerMap m ∧
  calls m' = calls m ∧
  microtasks m' =
    microtasks m ++ [NotifyTask k None (Some A); NotifyTask k (Some A) (Some B)].
Proof.
  intros Hk Hne. unfold add at 2. rewrite Hk.
  unfold add. simpl. rewrite lookup_insert_eq.
  unfold Set_add. rewrite bool_decide_eq_false_2
    by (intros [->|[]%elem_of_nil]%elem_of_cons; done).
  unfold remove, get. simpl. rewrite !lookup_insert_eq. simpl.
  rewrite bool_decide_eq_true_2 by done.
  unfold Set_delete. rewrite !filter_cons, filter_nil.
  rewrite decide_False by (intros HA; by apply HA).
  rewrite decide_True by done. simpl.
  rewrite lookup_insert_eq, !insert_insert_eq. simpl.
  rewrite <- app_assoc. done.
Qed.

(** What a listener of [k] hears from the three calls, in terms of the two
    notification loops. *)
Lemma add_add_remove_heard m (k : string) (A B : PIdElement) (fn : NotifyFn)
    (ls : list NotifyFn) :
  refMap m !! k = None → listenerMap m !! k = Some ls → A ≠ B →
  ∃ made1 made2,
    heard fn (checkpoint throws (remove k A (add k B (add k A m))))
    = heard fn (checkpoint throws m)
      ++ map snd (filter (λ c : Call, c.1 = fn)
                    (forEach throws ls (None, Some A) made1))
      ++ map snd (filter (λ c : Call, c.1 = fn)
                    (forEach throws ls (Some A, Some B) made2)).
Proof.
  intros Hk Hls Hne.
  destruct (add_add_remove_state m k A B Hk Hne) as (_ & Hl & Hc & Hq).
  set (m' := remove k A (add k B (add k A m))) in *. clearbody m'.
  unfold checkpoint, heard. simpl.
  rewrite Hq, foldl_app. simpl.
  rewrite (run_queue_calls m' m (microtasks m) Hl Hc).
  unfold notify.
  rewrite runMicrotask_listenerMap, !run_queue_listenerMap, Hl, Hls.
  rewrite !filter_app, !map_app, <- app_assoc.
  eexists _, _. reflexivity.
Qed.

End RegistryFacts.

(** C5, as stated, fails: [notify] loops with [forEach], which an exception
    ends.  With listeners 7 and then 8 on the key and listener 7 throwing
    when called with (absent, 1), listener 8 is not called with
    (absent, 1): from the three calls it hears (1, 2) alone. *)
Lemma throwing_listener_hides_transition :
  let throws := λ (made : list (nat * (option nat * option nat))) call,
                  bool_decide (call = (7%nat, (None, Some 1%nat))) in
  let m := Registry.checkpoint throws
             (Registry.on "k" 8%nat (Registry.on "k" 7%nat Registry.empty)) in
  let m' := Registry.checkpoint throws
              (Registry.remove "k" 1%nat (Registry.add "k" 2%nat (Registry.add "k" 1%nat m))) in
  Registry.listenerMap m !! "k" = Some [7%nat; 8%nat] ∧
  Registry.heard 8%nat m' = Registry.heard 8%nat m ++ [(Some 1%nat, Some 2%nat)] ∧
  Registry.heard 8%nat m'
  ≠ Registry.heard 8%nat m ++ [(None, Some 1%nat); (Some 1%nat, Some 2%nat)].
Proof. by vm_compute. Qed.

(** C5, amended: with nothing registered under [k], [A] and [B] distinct
    and [fn] listening on [k], the calls add(k, A), add(k, B), remove(k, A)
    made in one synchronous run add to what [fn] hears, after whatever was
    queued before, an in-order part of (absent, A), (A, B), whatever the
    listeners do: never (absent, B), never the two in the other order,
    never one call for both.  When no listener subscribed to [k] before
    [fn] throws on these two notifications, [fn] hears exactly
    (absent, A) and then (A, B); [fn] itself may throw. *)
Theorem registry_transitions_in_order
    (throws : list (nat * (option nat * option nat)) →
              nat * (option nat * option nat) → bool)
    (m : Registry.RefManager) (k : string) (A B : Registry.PIdElement)
    (fn : Registry.NotifyFn) (before after : list Registry.NotifyFn) :
  Registry.refMap m !! k = None →
  Registry.listenerMap m !! k = Some (before ++ fn :: after) →
  NoDup (before ++ fn :: after) →
  A ≠ B →
  let m' := Registry.checkpoint throws
              (Registry.remove k A (Registry.add k B (Registry.add k A m))) in
  (∃ l, Registry.heard fn m' = Registry.heard fn (Registry.checkpoint throws m) ++ l ∧
        l `sublist_of` [(None, Some A); (Some A, Some B)]) ∧
  ((∀ made g, g ∈ before →
      throws made (g, (None, Some A)) = false ∧
      throws made (g, (Some A, Some B)) = false) →
   Registry.heard fn m'
   = Registry.heard fn (Registry.checkpoint throws m)
     ++ [(None, Some A); (Some A, Some B)]).
Proof.
  intros Hk Hls Hnd Hne m'.
  destruct (add_add_remove_heard throws m k A B fn _ Hk Hls Hne)
    as (made1 & made2 & Hheard).
  fold m' in Hheard. split.
  - rewrite Hheard. eexists. split; [reflexivity|].
    destruct (forEach_heard_at_most_once throws fn (before ++ fn :: after)
                (None, Some A) made1 Hnd) as [-> | ->];
      destruct (forEach_heard_at_most_once throws fn (before ++ fn :: after)
                  (Some A, Some B) made2 Hnd) as [-> | ->];
      simpl; repeat constructor.
  - intros Hquiet. rewrite Hheard.
    rewrite !forEach_heard_once; try done; intros made g Hg; by apply Hquiet.
Qed.

Lemma registry_transitions_in_order_witness :
  let throws := λ (made : list (nat * (option nat * option nat)))
                  (call : nat * (option nat * option nat)),
                  bool_decide (call.1 = 7%nat) in
  let m := Registry.on "k" 8%nat (Registry.on "k" 7%nat Registry.empty) in
  Registry.heard 7%nat
    (Registry.checkpoint throws
       (Registry.remove "k" 1%nat (Registry.add "k" 2%nat (Registry.add "k" 1%nat m))))
  = Registry.heard 7%nat (Registry.checkpoint throws m)
    ++ [(None, Some 1%nat); (Some 1%nat, Some 2%nat)].
Proof.
  intros throws m.
  apply (proj2 (registry_transitions_in_order throws m "k" 1%nat 2%nat 7%nat
                  [] [8%nat] eq_refl eq_refl
                  ltac:(apply NoDup_cons; split;
                          [by intros [=]%list_elem_of_singleton|apply NoDup_singleton])
                  ltac:(lia))).
  intros made g Hg. by apply elem_of_nil in Hg.
Defined.

(** ** Remote gender cache *)

Section CacheFacts.
Implicit Types (w : World) (rs : list Request) (ls : list (nat * nat))
  (q : Request) (r signal : nat) (e : Event) (es : list Event).

Lemma runListeners_length signal ls rs :
  length (runListeners signal ls rs) = length rs.
Proof.
  revert rs. induction ls as [|l ls IH]; intros rs; [done|].
  unfold runListeners in *. simpl. rewrite IH.
  case_bool_decide; [apply length_alter|done].
Qed.

Lemma runListeners_app signal ls1 ls2 rs :
  runListeners signal (ls1 ++ ls2) rs
  = runListeners signal ls2 (runListeners signal ls1 rs).
Proof. apply foldl_app. Qed.

(** Listeners of other requests leave request [r] alone. *)
Lemma runListeners_other signal ls rs r :
  Forall (λ l, l.2 ≠ r) ls → runListeners signal ls rs !! r = rs !! r.
Proof.
  revert rs. induction ls as [|l ls IH]; intros rs Hls; [done|].
  apply Forall_cons in Hls as [Hl Hls].
  unfold runListeners in *. simpl. rewrite IH by done.
  case_bool_decide; [by apply list_lookup_alter_ne|done].
Qed.

(** A signal nobody listens to changes no request. *)
Lemma runListeners_unheard signal ls rs :
  Forall (λ l, l.1 ≠ signal) ls → runListeners signal ls rs = rs.
Proof.
  revert rs. induction ls as [|l ls IH]; intros rs Hls; [done|].
  apply Forall_cons in Hls as [Hl Hls].
  unfold runListeners in *. simpl.
  rewrite bool_decide_eq_false_2 by done. by apply IH.
Qed.

Lemma fire_length signal w : length (requests (fire signal w)) = length (requests w).
Proof. unfold fire. case_bool_decide; [done|]. apply runListeners_length. Qed.

Lemma fire_genderRequests signal w : genderRequests (fire signal w) = genderRequests w.
Proof. unfold fire. by case_bool_decide. Qed.

Lemma fire_listeners signal w : listeners (fire signal w) = listeners w.
Proof. unfold fire. by case_bool_decide. Qed.

Lemma fetch_length_new uri signal w :
  genderRequests w !! uri = None →
  length (requests (fetch uri signal w).2) = S (length (requests w)).
Proof. intros Hu. unfold fetch. rewrite Hu. simpl. rewrite length_app. simpl. lia. Qed.

Lemma fetch_length_known uri signal w r :
  genderRequests w !! uri = Some r →
  length (requests (fetch uri signal w).2) = length (requests w).
Proof. intros Hu. unfold fetch. rewrite Hu. simpl. apply length_alter. Qed.

Lemma step_length_mono w e : (length (requests w) ≤ length (requests (step w e)))%nat.
Proof.
  destruct e as [uri signal|signal|r o]; simpl.
  - destruct (genderRequests w !! uri) as [r|] eqn:E.
    + by rewrite (fetch_length_known _ _ _ r).
    + rewrite fetch_length_new by done. lia.
  - by rewrite fire_length.
  - unfold settle. simpl. by rewrite length_alter.
Qed.

Lemma step_listeners_in_range w e :
  listeners_in_range w → listeners_in_range (step w e).
Proof.
  unfold listeners_in_range. intros Hw.
  assert (Forall (λ l, (l.2 < length (requests (step w e)))%nat) (listeners w)) as Hold.
  { eapply Forall_impl; [exact Hw|]. intros l Hl. simpl in Hl.
    pose proof (step_length_mono w e). lia. }
  destruct e as [uri signal|signal|r o]; simpl in *.
  - unfold fetch in *. destruct (genderRequests w !! uri) as [r|]; simpl in *; [done|].
    apply Forall_app. split; [done|].
    apply Forall_singleton. simpl. rewrite length_app. simpl. lia.
  - by rewrite fire_listeners.
  - done.
Qed.

Lemma reachable_listeners_in_range w : reachable w → listeners_in_range w.
Proof.
  induction 1 as [|w e _ IH]; [by apply Forall_nil|].
  by apply step_listeners_in_range.
Qed.

(** An entry of [genderRequests] is never removed nor replaced. *)
Lemma step_keeps_entry w e (uri : string) r :
  genderRequests w !! uri = Some r → genderRequests (step w e) !! uri = Some r.
Proof.
  intros Hu. destruct e as [uri' signal|signal|r' o]; simpl.
  - unfold fetch. destruct (genderRequests w !! uri') as [r'|] eqn:E; simpl; [done|].
    rewrite lookup_insert_ne; [done|]. intros ->. congruence.
  - by rewrite fire_genderRequests.
  - done.
Qed.

Lemma run_keeps_entry es w (uri : string) r :
  genderRequests w !! uri = Some r → genderRequests (run es w) !! uri = Some r.
Proof.
  revert w. induction es as [|e es IH]; intros w Hu; [done|].
  simpl. apply IH. by apply step_keeps_entry.
Qed.

Lemma fetch_registers uri signal w :
  ∃ r, genderRequests (fetch uri signal w).2 !! uri = Some r ∧
       ((fetch uri signal w).1 = RacePromise r ∨ (fetch uri signal w).1 = SharedPromise r).
Proof.
  unfold fetch. destruct (genderRequests w !! uri) as [r|] eqn:E; simpl.
  - exists r. eauto.
  - exists (length (requests w)). rewrite lookup_insert_eq. eauto.
Qed.

(** Joining changes the counter of the multiplexer and nothing a promise
    depends on. *)
Lemma stateOf_bump (p : PromiseRef) r w :
  stateOf p (set_requests (alter bumpRequest r (requests w)) w) = stateOf p w.
Proof.
  destruct p as [r'|r']; simpl.
  - destruct (decide (r = r')) as [->|Hne].
    + rewrite list_lookup_alter_eq. by destruct (requests w !! r').
    + by rewrite list_lookup_alter_ne.
  - destruct (decide (r = r')) as [->|Hne].
    + rewrite list_lookup_alter_eq. by destruct (requests w !! r').
    + by rewrite list_lookup_alter_ne.
Qed.

End CacheFacts.

Section CacheClaims.
Implicit Types (w : World) (source : string) (r : nat).

Lemma alter_last (f : Request → Request) (rs : list Request) (q : Request) :
  alter f (length rs) (rs ++ [q]) = rs ++ [f q].
Proof. by rewrite alter_app_r_alt, Nat.sub_diag by lia. Qed.

(** After the first call and one joining call: the state of the shared
    request and the listeners. *)
Lemma fetch_twice w source (s1 s2 : nat) :
  genderRequests w !! source = None →
  let w2 := (fetch source s2 (fetch source s1 w).2).2 in
  requests w2 = requests w ++ [bumpRequest (newRequest source)] ∧
  listeners w2 = listeners w ++ [(s1, length (requests w))] ∧
  aborted_signals w2 = aborted_signals w.
Proof.
  intros Hu. unfold fetch at 2. rewrite Hu. simpl.
  unfold fetch. simpl. rewrite lookup_insert_eq. simpl.
  by rewrite alter_last.
Qed.

End CacheClaims.

(** C1: a call of [fetch] for a source the cache does not know, and a second
    call for the same source made while the transport is in flight, issue
    exactly one transport request between them.  When the first caller's
    signal then fires, the multiplexer's signal stays off, [super.abort]
    has not run, the transport is still in flight and the second caller's
    promise is still pending.  When the transport then settles, the second
    caller's promise settles with its result: with the entry of the table
    for a known code, with the tuple for a tuple of strings, with the
    status error for a response that is not ok, with the failure of a
    failed transport; in each case with what the response handler makes of
    the response. *)
Theorem concurrent_fetches_share_one_transport
    (w : World) (source : string) (s1 s2 : nat) :
  reachable w → genderRequests w !! source = None →
  let r := length (requests w) in
  let w1 := (fetch source s1 w).2 in
  let w2 := (fetch source s2 w1).2 in
  let w3 := fire s1 w2 in
  (fetch source s1 w).1 = RacePromise r ∧
  (fetch source s2 w1).1 = SharedPromise r ∧
  requests w2 = requests w ++ [bumpRequest (newRequest source)] ∧
  length (requests w3) = S (length (requests w)) ∧
  (∃ q, requests w3 !! r = Some q ∧ uri q = source ∧ transport q = InFlight ∧
        signal_aborted (abortMux q) = false ∧ super_aborts (abortMux q) = 0%nat) ∧
  stateOf (SharedPromise r) w3 = Pending ∧
  (∀ response : Response,
     stateOf (SharedPromise r) (settle r (Responded response) w3)
     = onResponse response) ∧
  (∀ (code : string) (p : Entry) (status : nat) (statusText : string),
     lookupPronouns code = Some p →
     stateOf (SharedPromise r)
       (settle r (Responded {| ok := true; status := status; statusText := statusText;
                               json := PronounsString code |}) w3)
     = Fulfilled {| Cache.pronouns := p |}) ∧
  (∀ (subject object : string) (status : nat) (statusText : string),
     stateOf (SharedPromise r)
       (settle r (Responded {| ok := true; status := status; statusText := statusText;
                               json := PronounsArray [Some subject; Some object] |}) w3)
     = Fulfilled {| Cache.pronouns := [Literal subject; Literal object] |}) ∧
  (∀ (status : nat) (statusText : string) (body : Body),
     stateOf (SharedPromise r)
       (settle r (Responded {| ok := false; status := status; statusText := statusText;
                               json := body |}) w3)
     = Rejected (GenderHttpError status statusText)) ∧
  stateOf (SharedPromise r) (settle r Failed w3) = Rejected TransportFailure.
Proof.
  intros Hw Hu r w1 w2 w3.
  destruct (fetch_twice w source s1 s2 Hu) as (Hrs & Hls & Hab).
  fold w1 in Hrs, Hls, Hab. fold w2 in Hrs, Hls, Hab. fold r in Hls.
  assert (∃ q, requests w3 !! r = Some q ∧ uri q = source ∧ transport q = InFlight ∧
               signal_aborted (abortMux q) = false ∧
               super_aborts (abortMux q) = 0%nat) as Hq.
  { unfold w3, fire. case_bool_decide.
    - exists (bumpRequest (newRequest source)).
      rewrite Hrs. by rewrite list_lookup_middle.
    - simpl. rewrite Hls, Hrs, runListeners_app.
      unfold runListeners at 1. simpl. rewrite bool_decide_eq_true_2 by done.
      rewrite list_lookup_alter_eq.
      rewrite runListeners_other.
      + rewrite list_lookup_middle by done. simpl. eauto 10.
      + eapply Forall_impl; [exact (reachable_listeners_in_range w Hw)|].
        intros l Hl. simpl in Hl. unfold r. lia. }
  assert (∀ response : Response,
            stateOf (SharedPromise r) (settle r (Responded response) w3)
            = onResponse response) as Hres.
  { intros response. destruct Hq as (q & Hq & _ & Ht & _).
    unfold settle. simpl. rewrite list_lookup_alter_eq, Hq. simpl.
    unfold complete. by rewrite Ht. }
  split_and!.
  - unfold fetch. by rewrite Hu.
  - unfold w1, fetch. rewrite Hu. simpl. by rewrite lookup_insert_eq.
  - done.
  - unfold w3. rewrite fire_length, Hrs, length_app. simpl. lia.
  - done.
  - destruct Hq as (q & Hq & _ & Ht & _). simpl. rewrite Hq. simpl. by rewrite Ht.
  - done.
  - intros code p status statusText Hp. rewrite Hres.
    unfold onResponse. simpl. by rewrite Hp.
  - intros subject object status statusText. by rewrite Hres.
  - intros status statusText body. by rewrite Hres.
  - destruct Hq as (q & Hq & _ & Ht & _).
    unfold settle. simpl. rewrite list_lookup_alter_eq, Hq. simpl.
    unfold complete. by rewrite Ht.
Qed.

Lemma concurrent_fetches_share_one_transport_witness :
  let w3 := fire 1 (fetch "u" 2 (fetch "u" 1 init).2).2 in
  length (requests w3) = 1%nat ∧
  stateOf (SharedPromise 0) w3 = Pending ∧
  stateOf (SharedPromise 0)
    (settle 0 (Responded {| ok := true; status := 200; statusText := "OK";
                            json := PronounsString "hh" |}) w3)
  = Fulfilled {| Cache.pronouns := words ["he"; "him"; "his"; "his"; "himself"] |}.
Proof.
  destruct (concurrent_fetches_share_one_transport init "u" 1 2)
    as (_ & _ & _ & Hlen & _ & Hpending & _ & Hcode & _).
  - apply reachable_init.
  - reflexivity.
  - split; [exact Hlen|]. split; [exact Hpending|].
    apply (Hcode "hh" _ 200%nat "OK"). reflexivity.
Defined.

(** C2 fails with two callers: the joining call never listens to its own
    signal, so after both callers have cancelled the counter stands at 1,
    [super.abort] has not run and the transport is still in flight. *)
Theorem all_cancelled_transport_not_aborted :
  requests (run [Fetch "u" 1; Fetch "u" 2; Fire 1; Fire 2] init)
  = [ {| uri := "u";
         abortMux := {| _count := 1; signal_aborted := false; super_aborts := 0 |};
         transport := InFlight;
         abortPromise := Rejected AbortError;
         raced := Rejected AbortError |} ].
Proof. reflexivity. Qed.

(** C3 fails for a caller that joined: firing its signal changes no request
    and leaves the promise it holds pending. *)
Theorem joined_caller_cancel_ignored :
  let w := (fetch "u" 1 init).2 in
  let (p, w') := fetch "u" 2 w in
  p = SharedPromise 0 ∧
  requests (fire 2 w') = requests w' ∧
  stateOf p (fire 2 w') = Pending.
Proof. by vm_compute. Qed.

(** C4, as stated, fails: a call made after the transport has settled finds
    the entry still in [genderRequests] and issues no transport request. *)
Lemma completed_fetch_not_reissued :
  let response :=
    {| ok := true; status := 200; statusText := "OK"; json := PronounsString "hh" |} in
  let w := run [Fetch "u" 1; Settle 0 (Responded response)] init in
  ¬ (length (requests (fetch "u" 2 w).2) = S (length (requests w))) ∧
  stateOf (fetch "u" 2 w).1 (fetch "u" 2 w).2
  = Fulfilled {| Cache.pronouns := words ["he"; "him"; "his"; "his"; "himself"] |}.
Proof. split; [by vm_compute|reflexivity]. Qed.

(** C4, amended: nothing removes an entry from the request map.  Once
    [fetch] has been called for a source, every later call for that source,
    whatever happened in between and whether the transport is in flight,
    completed or aborted, issues no transport request: it returns the
    stored promise, settled or not, and leaves every promise as it was. *)
Theorem fetch_serves_stored_promise
    (w : World) (source : string) (s0 s : nat) (es : list Event) :
  let w' := run es (fetch source s0 w).2 in
  ∃ r : nat,
    ((fetch source s0 w).1 = RacePromise r ∨ (fetch source s0 w).1 = SharedPromise r) ∧
    (fetch source s w').1 = SharedPromise r ∧
    length (requests (fetch source s w').2) = length (requests w') ∧
    genderRequests (fetch source s w').2 = genderRequests w' ∧
    ∀ p : PromiseRef, stateOf p (fetch source s w').2 = stateOf p w'.
Proof.
  intros w'. destruct (fetch_registers source s0 w) as (r & Hr & Hp).
  exists r. split; [done|].
  apply (run_keeps_entry es) in Hr. fold w' in Hr.
  unfold fetch at 1 2 3 4. rewrite Hr. simpl. split_and!; [done| |done|].
  - apply length_alter.
  - intros p. apply stateOf_bump.
Qed.

(** X23: a caller alone on its request: its cancellation aborts the
    transport, through one run of [super.abort], and rejects its promise. *)
Lemma lone_caller_cancel_aborts (w : World) (source : string) (s1 : nat) :
  reachable w → genderRequests w !! source = None → s1 ∉ aborted_signals w →
  let r := length (requests w) in
  let w2 := fire s1 (fetch source s1 w).2 in
  stateOf (RacePromise r) w2 = Rejected AbortError ∧
  ∃ q, requests w2 !! r = Some q ∧ transport q = Aborted ∧
       signal_aborted (abortMux q) = true ∧ super_aborts (abortMux q) = 1%nat.
Proof.
  intros Hw Hu Hs r w2.
  assert (requests w2 !! r = Some (onAbort (newRequest source))) as Hq.
  { unfold w2, fetch, fire. rewrite Hu. simpl.
    rewrite bool_decide_eq_false_2 by done. simpl.
    rewrite runListeners_app. unfold runListeners at 1. simpl.
    rewrite bool_decide_eq_true_2 by done.
    rewrite list_lookup_alter_eq, runListeners_other.
    - by rewrite list_lookup_middle.
    - eapply Forall_impl; [exact (reachable_listeners_in_range w Hw)|].
      intros l Hl. simpl in Hl. unfold r. lia. }
  split.
  - simpl. by rewrite Hq.
  - eexists. split; [exact Hq|]. done.
Qed.

(** Each request has one listener, the one its first caller's signal got. *)
Lemma step_one_listener (w : World) (e : Event) :
  listeners_in_range w → NoDup (listeners w).*2 → NoDup (listeners (step w e)).*2.
Proof.
  intros Hr Hnd. destruct e as [source signal|signal|r o]; simpl; [| |done].
  - unfold fetch. destruct (genderRequests w !! source); simpl; [done|].
    rewrite fmap_app. simpl. apply NoDup_app. split_and!; [done| |apply NoDup_singleton].
    intros r Hin [->|[]%elem_of_nil]%elem_of_cons.
    apply list_elem_of_fmap in Hin as (l & Hl & Hin).
    unfold listeners_in_range in Hr. rewrite Forall_forall in Hr.
    specialize (Hr l Hin). simpl in Hr. lia.
  - by rewrite fire_listeners.
Qed.

Lemma reachable_one_listener (w : World) : reachable w → NoDup (listeners w).*2.
Proof.
  induction 1 as [|w e Hw IH]; [apply NoDup_nil_2|].
  apply step_one_listener; [by apply reachable_listeners_in_range|done].
Qed.

Lemma runListeners_lookup (signal : nat) (ls : list (nat * nat))
    (rs : list Request) (r : nat) :
  NoDup ls.*2 →
  runListeners signal ls rs !! r
  = if bool_decide ((signal, r) ∈ ls) then onAbort <$> rs !! r else rs !! r.
Proof.
  revert rs. induction ls as [|[s' r'] ls IH]; intros rs Hnd; [done|].
  rewrite fmap_cons in Hnd. apply NoDup_cons in Hnd as [Hr' Hnd]. simpl in Hr'.
  change (runListeners signal ((s', r') :: ls) rs)
    with (runListeners signal ls
            (if bool_decide (s' = signal) then alter onAbort r' rs else rs)).
  rewrite IH by done.
  destruct (decide (s' = signal)) as [->|Hs].
  - rewrite (bool_decide_eq_true_2 (signal = signal)) by done.
    destruct (decide (r' = r)) as [->|Hne].
    + rewrite (bool_decide_eq_true_2 (_ ∈ _ :: _)) by left.
      rewrite bool_decide_eq_false_2; [apply list_lookup_alter_eq|].
      intros Hin. apply Hr'. apply list_elem_of_fmap. by exists (signal, r).
    + rewrite list_lookup_alter_ne by done.
      apply (f_equal (λ b : bool, if b then _ else _)), bool_decide_ext.
      rewrite elem_of_cons. split; [by right|].
      intros [Heq|?]; [by simplify_eq|done].
  - rewrite (bool_decide_eq_false_2 (s' = signal)) by done.
    apply (f_equal (λ b : bool, if b then _ else _)), bool_decide_ext.
    rewrite elem_of_cons. split; [by right|].
    intros [Heq|?]; [by simplify_eq|done].
Qed.

(** X24: while the counter of a request stands at two or more, no signal
    that fires aborts its transport, in any state the cache can reach. *)
Lemma cancel_spares_shared_transport (w : World) (r signal : nat) (q : Request) :
  reachable w → requests w !! r = Some q →
  transport q = InFlight → 2 ≤ _count (abortMux q) →
  ∃ q', requests (fire signal w) !! r = Some q' ∧ transport q' = InFlight ∧
        signal_aborted (abortMux q') = signal_aborted (abortMux q) ∧
        super_aborts (abortMux q') = super_aborts (abortMux q).
Proof.
  intros Hw Hq Ht Hc. unfold fire. case_bool_decide; [by eauto|]. simpl.
  rewrite runListeners_lookup by by apply reachable_one_listener.
  case_bool_decide; [|by eauto].
  rewrite Hq. simpl. eexists. split; [done|].
  unfold onAbort, abort. rewrite Ht.
  destruct (Z.leb_spec (_count (abortMux q) - 1) 0); [lia|]. simpl.
  by rewrite andb_negb_l.
Qed.

(** A signal no listener was added to changes no request when it fires:
    this is the lot of every joining caller's signal. *)
Lemma fire_unheard (w : World) (signal : nat) :
  Forall (λ l, l.1 ≠ signal) (listeners w) → requests (fire signal w) = requests w.
Proof.
  intros Hls. unfold fire. case_bool_decide; [done|]. simpl.
  by apply runListeners_unheard.
Qed.

Section Loading.
Implicit Types (this : PIdElement) (w : World) (src : string).

Lemma _cancelGender_world this w :
  length (requests (_cancelGender (this, w)).2) = length (requests w) ∧
  genderRequests (_cancelGender (this, w)).2 = genderRequests w.
Proof.
  unfold _cancelGender. destruct (_abortController this); simpl; [|done].
  by rewrite fire_length, fire_genderRequests.
Qed.

Lemma _cancelGender_element this w :
  dispatched (_cancelGender (this, w)).1 = dispatched this ∧
  awaited (_cancelGender (this, w)).1 = awaited this ∧
  _value (_cancelGender (this, w)).1 = _value this.
Proof. unfold _cancelGender. by destruct (_abortController this). Qed.

(** A source with an empty provider: the error is dispatched and [fetch] is
    called all the same. *)
Lemma empty_provider_error_then_fetch (path : string) this w :
  let src := String ":" path in
  let st := _loadGender src (this, w) in
  dispatched st.1 = dispatched this ++ [error (UnknownGenderSource src)] ∧
  is_Some (genderRequests st.2 !! src) ∧
  (genderRequests w !! src = None →
   requests st.2 = requests (_cancelGender (this, w)).2 ++ [newRequest src]).
Proof.
  intros src st. unfold st, _loadGender.
  pose proof (_cancelGender_world this w) as [_ Hg].
  pose proof (_cancelGender_element this w) as (Hd & _).
  destruct (_cancelGender (this, w)) as [this' w'] eqn:E. simpl in Hg, Hd.
  assert (String.index 0 ":" src = Some 0%nat) as ->.
  { unfold src. simpl. by destruct path. }
  simpl. unfold fetch. simpl. rewrite Hg.
  destruct (genderRequests w !! src) as [r|] eqn:Hu; simpl.
  - split_and!; [by rewrite Hd|by rewrite Hu|done].
  - split_and!; [by rewrite Hd|by rewrite lookup_insert_eq|done].
Qed.

End Loading.

(** C9 fails in its second half: for the source ":x", loaded by a fresh
    element over an empty cache, the error is dispatched at once and the
    load goes on to call [fetch], which issues a transport request. *)
Theorem empty_provider_still_fetches :
  let st := _loadGender ":x" (new_PIdElement, init) in
  dispatched st.1 = [error (UnknownGenderSource ":x")] ∧
  awaited st.1 = [RacePromise 0] ∧
  requests st.2 = [newRequest ":x"] ∧
  genderRequests st.2 !! ":x" = Some 0%nat.
Proof. by vm_compute. Qed.

(** C10: a source without a colon that [lookupPronouns] does not know is
    loaded without an error event and without a transport request; the
    element's pronoun set becomes the all-[ORIGINAL] "unknown" entry, one
    "genderupdated" event carries it, and each grammatical form then
    resolves to the fallback text. *)
Theorem unknown_constant_falls_back
    (src : string) (this : PIdElement) (w : World) :
  String.index 0 ":" src = None → lookupPronouns src = None →
  let st := _loadGender src (this, w) in
  loadedPronouns st.1 = Some [ORIGINAL; ORIGINAL; ORIGINAL; ORIGINAL; ORIGINAL] ∧
  loadedPronouns st.1 = property "unknown" Resolver.pronouns ∧
  dispatched st.1 = dispatched this ++ [genderupdated (pronounData st.1)] ∧
  awaited st.1 = awaited this ∧
  length (requests st.2) = length (requests w) ∧
  genderRequests st.2 = genderRequests w ∧
  ∀ (tables : CaseTables) (form fallback : string),
    form ∈ ENTRY_FORMATS →
    changeGender form (pronounData st.1) fallback = Normal fallback.
Proof.
  intros Hcolon Hlookup st. unfold st, _loadGender.
  pose proof (_cancelGender_world this w) as [Hlen Hg].
  pose proof (_cancelGender_element this w) as (Hd & Ha & _).
  destruct (_cancelGender (this, w)) as [this' w'] eqn:E. simpl in *.
  rewrite Hcolon, Hlookup. simpl.
  split_and!; try done; [by rewrite Hd|].
  intros tables form fallback Hform.
  repeat (apply elem_of_cons in Hform as [->|Hform]);
    first [reflexivity | by apply elem_of_nil in Hform].
Qed.

Lemma unknown_constant_falls_back_witness :
  let st := _loadGender "bogus" (new_PIdElement, init) in
  loadedPronouns st.1 = Some [ORIGINAL; ORIGINAL; ORIGINAL; ORIGINAL; ORIGINAL] ∧
  length (requests st.2) = 0%nat.
Proof.
  destruct (unknown_constant_falls_back "bogus" new_PIdElement init)
    as (Hloaded & _ & _ & _ & Hlen & _).
  - reflexivity.
  - reflexivity.
  - split; [exact Hloaded|exact Hlen].
Defined.

(** * Further properties *)

(** ** Table lookup *)

Section Lookup.

Lemma property_None {A} (key : string) (o : list (string * A)) :
  key ∉ o.*1 → property key o = None.
Proof.
  induction o as [|[k v] o IH]; intros Hk; [done|]. simpl.
  destruct (String.eqb_spec k key) as [->|Hne].
  - exfalso. apply Hk. left.
  - apply IH. intros Hin. apply Hk. by right.
Qed.

Lemma property_Some_value {A} (key : string) (o : list (string * A)) (v : A) :
  property key o = Some v → v ∈ values o.
Proof.
  induction o as [|[k v'] o IH]; [done|]. simpl.
  destruct (String.eqb k key); [intros [= ->]; left|].
  intros Hv. right. by apply IH.
Qed.

Lemma lookupPronouns_in_table (code : string) (p : Entry) :
  lookupPronouns code = Some p → p ∈ values Resolver.pronouns.
Proof.
  unfold lookupPronouns. repeat case_match; apply property_Some_value.
Qed.

Lemma table_keys_checked :
  Forall (λ kp : string * Entry, lookupPronouns kp.1 = Some kp.2) Resolver.pronouns.
Proof. by repeat constructor. Qed.

Lemma aliases_checked :
  Forall (λ ct : string * string,
            ∃ p : Entry, property ct.2 Resolver.pronouns = Some p ∧
                         lookupPronouns ct.1 = Some p ∧ length p = 5%nat)
    pronounDbMap.
Proof. repeat constructor; by eexists. Qed.

Lemma table_literals_not_empty :
  Forall (λ p : Entry, Literal "" ∉ p) (values Resolver.pronouns).
Proof.
  repeat constructor; intros Hin;
    repeat (apply elem_of_cons in Hin as [?|Hin]; [done|]);
    by apply elem_of_nil in Hin.
Qed.

Lemma entry_format_index (i : nat) (form : string) :
  ENTRY_FORMATS !! i = Some form →
  indexOf form ENTRY_FORMATS = Z.of_nat i ∧
  String.eqb form "" = false ∧
  (String.eqb form "n" || String.eqb form "np" || String.eqb form "nr") = false.
Proof.
  do 5 (destruct i as [|i]; [by intros [= <-]|]). done.
Qed.

End Lookup.

(** X1: each key of the pronoun table resolves to its own entry; no alias
    redirects a table key to another entry. *)
Theorem table_keys_resolve (key : string) (p : Entry) :
  (key, p) ∈ Resolver.pronouns → lookupPronouns key = Some p.
Proof.
  intros Hin. pose proof table_keys_checked as Hall.
  rewrite Forall_forall in Hall. exact (Hall (key, p) Hin).
Qed.

Lemma table_keys_resolve_witness :
  lookupPronouns "she" = Some (words ["she"; "her"; "her"; "hers"; "herself"]).
Proof.
  apply table_keys_resolve. vm_compute. do 7 right. left.
Defined.

(** X2: each alias of [pronounDbMap] resolves to the entry the table holds
    under the alias's target, and that entry has all five slots. *)
Theorem aliases_resolve (code target : string) :
  (code, target) ∈ pronounDbMap →
  ∃ p : Entry, property target Resolver.pronouns = Some p ∧
               lookupPronouns code = Some p ∧ length p = 5%nat.
Proof.
  intros Hin. pose proof aliases_checked as Hall.
  rewrite Forall_forall in Hall. exact (Hall (code, target) Hin).
Qed.

Lemma aliases_resolve_witness :
  ∃ p : Entry, property "none" Resolver.pronouns = Some p ∧
               lookupPronouns "avoid" = Some p ∧ length p = 5%nat.
Proof.
  apply (aliases_resolve "avoid" "none"). vm_compute. do 20 right. left.
Defined.

(** X3: [lookupPronouns] is absent exactly on the codes that are neither an
    alias nor a key of the table. *)
Theorem lookupPronouns_absent_iff (code : string) :
  lookupPronouns code = None ↔
  (code ∉ pronounDbMap.*1) ∧ (code ∉ Resolver.pronouns.*1).
Proof.
  split.
  - intros Hnone. split; intros Hin.
    + apply list_elem_of_fmap in Hin as ([c target] & -> & Hin).
      pose proof aliases_checked as Hall. rewrite Forall_forall in Hall.
      destruct (Hall (c, target) Hin) as (p & _ & Hp & _).
      simpl in Hnone, Hp. congruence.
    + apply list_elem_of_fmap in Hin as ([k p] & -> & Hin).
      pose proof table_keys_checked as Hall. rewrite Forall_forall in Hall.
      specialize (Hall (k, p) Hin). simpl in Hnone, Hall. congruence.
  - intros [Ha Hk]. unfold lookupPronouns.
    rewrite (property_None _ _ Ha). by apply property_None.
Qed.

(** X4: with an entry that [lookupPronouns] returns, [changeGender] never
    throws, whatever the form, the identity, the fallback and the case
    tables. *)
Theorem table_entries_never_throw `{CaseTables}
    (code : string) (p : Entry) (form identity fallback : string) :
  lookupPronouns code = Some p →
  ∃ text : string,
    changeGender form {| identity := identity; pronouns_of := Some p |} fallback
    = Normal text.
Proof.
  intros Hp%lookupPronouns_in_table. apply changeGender_defined.
  intros entry [= <-]. pose proof table_literals_not_empty as Hall.
  rewrite Forall_forall in Hall. by apply Hall.
Qed.

Lemma table_entries_never_throw_witness :
  ∃ text : string,
    changeGender (H := ascii_tables) "pp"
      {| identity := "Sam";
         pronouns_of := Some (words ["he"; "him"; "his"; "his"; "himself"]) |} "Hers"
    = Normal text.
Proof.
  apply (table_entries_never_throw (H := ascii_tables) "hh"). reflexivity.
Defined.

(** X5: a form that [inferForm] returns is one of s, o, pa, pp, r, never an
    identity form. *)
Theorem inferForm_range `{CaseTables} (sample form : string) :
  inferForm sample = Some form → form ∈ ENTRY_FORMATS.
Proof.
  rewrite inferForm_unfold. cbv zeta. case_bool_decide; [|done].
  destruct (_ !! 0%nat) as [i|]; [|done]. simpl.
  unfold at_index. case_match; [done|].
  apply list_elem_of_lookup_2.
Qed.

Lemma inferForm_range_witness : "o" ∈ ENTRY_FORMATS.
Proof.
  apply (inferForm_range (H := ascii_tables) "Her"). reflexivity.
Defined.

(** X6: a form code outside the eight known ones gives back the fallback,
    with any pronoun data, even data that makes a known form throw. *)
Theorem changeGender_unknown_form `{CaseTables}
    (form : string) (data : PronounData) (fallback : string) :
  form ∉ PRONOUN_FORMATS → changeGender form data fallback = Normal fallback.
Proof.
  intros Hf. unfold changeGender.
  assert (form ≠ "n" ∧ form ≠ "np" ∧ form ≠ "nr" ∧ form ∉ ENTRY_FORMATS) as (Hn & Hnp & Hnr & He).
  { split_and!; try (intros ->; apply Hf; unfold PRONOUN_FORMATS; simpl; by repeat constructor).
    intros Hin. apply Hf. unfold PRONOUN_FORMATS. apply elem_of_app. by right. }
  apply String.eqb_neq in Hn, Hnp, Hnr. rewrite Hn, Hnp, Hnr. simpl.
  by apply getPronounInForm_unrecognized.
Qed.

Lemma changeGender_unknown_form_witness :
  changeGender (H := ascii_tables) "subject"
    {| identity := "Sam"; pronouns_of := Some (words [""; "them"]) |} "She"
  = Normal "She".
Proof.
  apply (changeGender_unknown_form (H := ascii_tables)).
  intros Hin. repeat (apply elem_of_cons in Hin as [?|Hin]; [done|]).
  by apply elem_of_nil in Hin.
Defined.

(** X7: an entry shorter than the position of the requested form, as a
    remote tuple of two strings is for pa, pp and r, gives back the
    fallback. *)
Theorem changeGender_short_entry `{CaseTables}
    (i : nat) (form : string) (data : PronounData) (entry : Entry)
    (fallback : string) :
  ENTRY_FORMATS !! i = Some form → pronouns_of data = Some entry →
  (length entry ≤ i)%nat →
  changeGender form data fallback = Normal fallback.
Proof.
  intros (Hidx & _ & Hid)%entry_format_index Hentry Hlen.
  unfold changeGender. rewrite Hid. unfold getPronounInForm.
  rewrite Hentry, Hidx. cbv zeta.
  rewrite bool_decide_eq_true_2 by lia.
  by rewrite at_index_of_nat, (lookup_ge_None_2 entry i Hlen).
Qed.

Lemma changeGender_short_entry_witness :
  changeGender (H := ascii_tables) "r"
    {| identity := "Sam"; pronouns_of := Some (words ["they"; "them"]) |} "Herself"
  = Normal "Herself".
Proof.
  apply (changeGender_short_entry (H := ascii_tables) 4 "r" _ (words ["they"; "them"])).
  - reflexivity.
  - reflexivity.
  - simpl. lia.
Defined.

(** X8: where the slot of the requested form holds [NAME], the forms s and
    o give the identity, pa and pp the identity followed by 's, and r the
    identity followed by 's self, whatever the fallback. *)
Theorem name_slot_follows_identity `{CaseTables}
    (i : nat) (form : string) (data : PronounData) (entry : Entry)
    (fallback : string) :
  ENTRY_FORMATS !! i = Some form → pronouns_of data = Some entry →
  entry !! i = Some NAME →
  changeGender form data fallback
  = Normal (match i with
            | 0 | 1 => identity data
            | 2 | 3 => identity data +:+ "'s"
            | _ => identity data +:+ "'s self"
            end)%nat.
Proof.
  intros Hform Hentry Hslot.
  destruct (entry_format_index i form Hform) as (Hidx & _ & Hid).
  unfold changeGender. rewrite Hid. unfold getPronounInForm.
  rewrite Hentry, Hidx. cbv zeta.
  rewrite bool_decide_eq_true_2 by lia.
  rewrite at_index_of_nat, Hslot.
  do 5 (destruct i as [|i]; [by injection Hform as <-|]). done.
Qed.

Lemma name_slot_follows_identity_witness :
  changeGender (H := ascii_tables) "r"
    {| identity := "Sam"; pronouns_of := property "none" Resolver.pronouns |} "herself"
  = Normal "Sam's self".
Proof.
  exact (name_slot_follows_identity (H := ascii_tables) 4 "r"
           {| identity := "Sam"; pronouns_of := property "none" Resolver.pronouns |}
           [NAME; NAME; NAME; NAME; NAME] "herself" eq_refl eq_refl eq_refl).
Defined.

(** ** Rendering *)

Section Rendering.
Context `{CaseTables}.
Implicit Types (this : Noun.PNounElement).

(** A word held by one entry only, first at position [i], is read as the
    form of that position. *)
Lemma inferForm_first_slot (w : string) (p : Entry) (i : nat) :
  toLowerCase w = w → entry_count w = 1%nat →
  p ∈ values Resolver.pronouns → p !! i = Some (Literal w) →
  (∀ j : nat, (j < i)%nat → p !! j ≠ Some (Literal w)) →
  inferForm w = ENTRY_FORMATS !! i.
Proof.
  intros Hlow Hone Hp Hi Hfirst. unfold entry_count in Hone.
  assert (Literal w ∈ p) as Hw by by eapply list_elem_of_lookup_2.
  destruct (filter _ (values Resolver.pronouns)) as [|p' [|??]] eqn:E; try done.
  assert (p ∈ [p']) as ->%list_elem_of_singleton.
  { rewrite <- E. by apply list_elem_of_filter. }
  pose proof (inferForm_single w p') as Hinf. rewrite Hlow in Hinf.
  rewrite (Hinf E).
  destruct (indexOf_first _ _ Hw) as (i' & -> & Hi' & Hfirst').
  rewrite at_index_of_nat. f_equal.
  destruct (Nat.lt_trichotomy i i') as [Hlt|[->|Hlt]]; [|done|].
  - by destruct (Hfirst' i Hlt).
  - by destruct (Hfirst i' Hlt).
Qed.

Lemma updatePronouns_render this (text : string) :
  Noun.updatePronouns this = Normal (Noun.render text this) →
  Noun.updatePronouns (Noun.render text this) = Normal (Noun.render text this).
Proof.
  unfold Noun.updatePronouns, Noun.chosenForm. simpl.
  destruct (Noun.isConnected this); [|done].
  destruct (if String.eqb (Noun._form this) "" then _ else _) as [form|];
    [destruct (Noun.pronounData this) as [data|]|].
  - destruct (String.eqb form ""); [by intros [= ->]|].
    destruct (changeGender form data _); [|done]. by intros [= ->].
  - by intros [= ->].
  - by intros [= ->].
Qed.

End Rendering.

(** X9: a connected element without a form attribute, whose lower-case
    fallback word lies in one entry of the table only, first at position
    [i], renders what the loaded entry holds at position [i]: the form is
    inferred from the fallback and the word is replaced slot by slot. *)
Theorem updatePronouns_substitutes `{CaseTables}
    (this : Noun.PNounElement) (data : PronounData) (p q : Entry)
    (i : nat) (v : string) :
  Noun.isConnected this = true → Noun._form this = "" →
  Noun.pronounData this = Some data → pronouns_of data = Some q →
  toLowerCase (Noun._fallback this) = Noun._fallback this →
  startsWithLu (Noun._fallback this) = false →
  entry_count (Noun._fallback this) = 1%nat →
  p ∈ values Resolver.pronouns →
  p !! i = Some (Literal (Noun._fallback this)) →
  (∀ j : nat, (j < i)%nat → p !! j ≠ Some (Literal (Noun._fallback this))) →
  q !! i = Some (Literal v) →
  Noun.updatePronouns this = Normal (Noun.render v this).
Proof.
  intros Hconn Hform Hdata Hq Hlow Hlu Hone Hp Hi Hfirst Hv.
  unfold Noun.updatePronouns, Noun.chosenForm.
  rewrite Hconn, Hform, Hdata. simpl.
  rewrite (inferForm_first_slot _ p i Hlow Hone Hp Hi Hfirst).
  destruct (entry_format_defined p _ i Hp Hi) as [form Hf]. rewrite Hf.
  destruct (entry_format_index i form Hf) as (Hidx & Hne & Hid).
  rewrite Hne. unfold changeGender. rewrite Hid. unfold getPronounInForm.
  rewrite Hq, Hidx. cbv zeta. rewrite bool_decide_eq_true_2 by lia.
  by rewrite at_index_of_nat, Hv, Hlu.
Qed.

Lemma updatePronouns_substitutes_witness :
  let this :=
    {| Noun._form := ""; Noun._fallback := "her"; Noun._value := "her";
       Noun.innerText := "her";
       Noun.pronounData :=
         Some {| identity := "Sam"; pronouns_of := lookupPronouns "hh" |};
       Noun.isConnected := true |} in
  Noun.updatePronouns (H := ascii_tables) this = Normal (Noun.render "him" this).
Proof.
  intros this.
  apply (updatePronouns_substitutes (H := ascii_tables) this
           {| identity := "Sam"; pronouns_of := lookupPronouns "hh" |}
           (words ["she"; "her"; "her"; "hers"; "herself"])
           (words ["he"; "him"; "his"; "his"; "himself"]) 1 "him");
    try reflexivity.
  - vm_compute. do 7 right. left.
  - intros j Hj. assert (j = 0%nat) as -> by lia. done.
Defined.

(** X10: rendering again changes nothing: [updatePronouns] starts from the
    stored fallback, not from the text it wrote, so a second run leaves the
    element as the first one left it. *)
Theorem updatePronouns_idempotent `{CaseTables} (this this' : Noun.PNounElement) :
  Noun.updatePronouns this = Normal this' →
  Noun.updatePronouns this' = Normal this'.
Proof.
  intros Hup.
  destruct (Noun.isConnected this) eqn:Hconn.
  - assert (∃ text, this' = Noun.render text this) as [text ->].
    { revert Hup. unfold Noun.updatePronouns. rewrite Hconn.
      repeat case_match; intros [= <-]; eauto. }
    by apply updatePronouns_render.
  - unfold Noun.updatePronouns in Hup. rewrite Hconn in Hup.
    injection Hup as <-. unfold Noun.updatePronouns. by rewrite Hconn.
Qed.

Lemma updatePronouns_idempotent_witness :
  let this :=
    {| Noun._form := "pa"; Noun._fallback := "Her"; Noun._value := "";
       Noun.innerText := "Her";
       Noun.pronounData :=
         Some {| identity := "Sam"; pronouns_of := lookupPronouns "tt" |};
       Noun.isConnected := true |} in
  Noun.updatePronouns (H := ascii_tables) (Noun.render "Their" this)
  = Normal (Noun.render "Their" this).
Proof.
  intros this.
  apply (updatePronouns_idempotent (H := ascii_tables) this). reflexivity.
Defined.

(** ** Registry: membership, holder and listeners *)

Section Sets.
Context {A : Type} `{EqDecision A}.
Implicit Types (x : A) (s : list A).

Lemma Set_add_NoDup x s : NoDup s → NoDup (Registry.Set_add x s).
Proof.
  intros Hnd. unfold Registry.Set_add. case_bool_decide; [done|].
  apply NoDup_app. split_and!; [done| |apply NoDup_singleton].
  intros y Hy ->%list_elem_of_singleton. done.
Qed.

Lemma Set_add_not_nil x s : Registry.Set_add x s ≠ [].
Proof.
  unfold Registry.Set_add. case_bool_decide as Hin.
  - intros ->. by apply elem_of_nil in Hin.
  - by destruct s.
Qed.

Lemma Set_add_elem x s : x ∈ Registry.Set_add x s.
Proof.
  unfold Registry.Set_add. case_bool_decide; [done|].
  apply elem_of_app. right. left.
Qed.

Lemma Set_delete_NoDup x s : NoDup s → NoDup (Registry.Set_delete x s).
Proof. apply NoDup_filter. Qed.

Lemma Set_delete_absent x s : x ∉ s → Registry.Set_delete x s = s.
Proof.
  intros Hx. unfold Registry.Set_delete.
  induction s as [|y s IH]; [done|].
  rewrite filter_cons, decide_True by (intros ->; apply Hx; left).
  f_equal. apply IH. intros Hin. apply Hx. by right.
Qed.

Lemma Set_delete_add x s : x ∉ s → Registry.Set_delete x (Registry.Set_add x s) = s.
Proof.
  intros Hx. unfold Registry.Set_add. rewrite bool_decide_eq_false_2 by done.
  unfold Registry.Set_delete. rewrite filter_app, filter_cons, filter_nil.
  rewrite decide_False by (intros Hne; by apply Hne).
  rewrite app_nil_r. by apply Set_delete_absent.
Qed.

Lemma Set_delete_gone x s : x ∉ Registry.Set_delete x s.
Proof.
  unfold Registry.Set_delete. intros [Hne _]%list_elem_of_filter. by apply Hne.
Qed.

End Sets.

(** X11: each of [add], [remove], [on] and [off] keeps both maps settled:
    no key is left with an empty set, and no set holds an element or a
    listener twice. *)
Theorem registry_sets_stay_settled
    (m : Registry.RefManager) (k : string) (el fn : nat) :
  Registry.settled_sets m →
  Registry.settled_sets (Registry.add k el m) ∧
  Registry.settled_sets (Registry.remove k el m) ∧
  Registry.settled_sets (Registry.on k fn m) ∧
  Registry.settled_sets (Registry.off k fn m).
Proof.
  intros [Hr Hl]. split_and!.
  - unfold Registry.add. destruct (Registry.refMap m !! k) as [refs|] eqn:E;
      (split; [|done]); simpl; apply map_Forall_insert_2; try done.
    + destruct (Hr k refs E) as [_ Hnd].
      split; [apply Set_add_not_nil|by apply Set_add_NoDup].
    + split; [done|apply NoDup_singleton].
  - unfold Registry.remove. destruct (Registry.refMap m !! k) as [refs|] eqn:E; [|done].
    destruct (Hr k refs E) as [_ Hnd].
    assert (Registry.settled_sets
              (if bool_decide (length (Registry.Set_delete el refs) = 0%nat)
               then Registry.set_refMap (delete k (Registry.refMap m)) m
               else Registry.set_refMap
                      (<[k := Registry.Set_delete el refs]> (Registry.refMap m)) m)) as Hs.
    { case_bool_decide as Hlen; (split; [|done]); simpl.
      - by apply map_Forall_delete.
      - apply map_Forall_insert_2; [|done].
        split; [|by apply Set_delete_NoDup].
        intros Hnil. by rewrite Hnil in Hlen. }
    destruct (bool_decide (Registry.get k m = Some el)); exact Hs.
  - unfold Registry.on. destruct (Registry.listenerMap m !! k) as [ls|] eqn:E;
      (split; [done|]); simpl; apply map_Forall_insert_2; try done.
    + destruct (Hl k ls E) as [_ Hnd].
      split; [apply Set_add_not_nil|by apply Set_add_NoDup].
    + split; [done|apply NoDup_singleton].
  - unfold Registry.off. destruct (Registry.listenerMap m !! k) as [ls|] eqn:E; [|done].
    destruct (Hl k ls E) as [_ Hnd].
    case_bool_decide as Hlen; (split; [done|]); simpl.
    + by apply map_Forall_delete.
    + apply map_Forall_insert_2; [|done].
      split; [|by apply Set_delete_NoDup].
      intros Hnil. by rewrite Hnil in Hlen.
Qed.

Lemma registry_sets_stay_settled_witness :
  Registry.settled_sets (Registry.add "k" 1%nat Registry.empty).
Proof.
  apply (registry_sets_stay_settled Registry.empty "k" 1%nat 0%nat).
  split; apply map_Forall_empty.
Defined.

(** X12: registering under a key that has a holder keeps that holder and
    queues no notification. *)
Theorem add_keeps_holder
    (m : Registry.RefManager) (k : string) (holder el : nat) :
  Registry.get k m = Some holder →
  Registry.get k (Registry.add k el m) = Some holder ∧
  Registry.microtasks (Registry.add k el m) = Registry.microtasks m.
Proof.
  unfold Registry.get, Registry.add.
  destruct (Registry.refMap m !! k) as [refs|] eqn:E; [|done]. simpl.
  intros Hh. rewrite lookup_insert_eq. simpl. split; [|done].
  unfold Registry.Set_add. case_bool_decide; [done|].
  destruct refs; [done|]. done.
Qed.

Lemma add_keeps_holder_witness :
  Registry.get "k" (Registry.add "k" 2%nat (Registry.add "k" 1%nat Registry.empty))
  = Some 1%nat.
Proof.
  apply (add_keeps_holder (Registry.add "k" 1%nat Registry.empty) "k" 1%nat 2%nat).
  reflexivity.
Defined.

(** X13: removing an element that is not the holder keeps the holder and
    queues no notification. *)
Theorem remove_other_keeps_holder
    (m : Registry.RefManager) (k : string) (holder el : nat) :
  Registry.get k m = Some holder → el ≠ holder →
  Registry.get k (Registry.remove k el m) = Some holder ∧
  Registry.microtasks (Registry.remove k el m) = Registry.microtasks m.
Proof.
  intros Hh Hne. unfold Registry.remove.
  rewrite Hh. unfold Registry.get in Hh.
  destruct (Registry.refMap m !! k) as [refs|] eqn:E; [|done]. simpl in Hh.
  destruct refs as [|h refs]; [done|]. injection Hh as ->.
  rewrite bool_decide_eq_false_2 by congruence.
  unfold Registry.Set_delete. rewrite filter_cons, decide_True by done.
  rewrite bool_decide_eq_false_2 by done.
  unfold Registry.get. simpl. by rewrite lookup_insert_eq.
Qed.

Lemma remove_other_keeps_holder_witness :
  let m := Registry.add "k" 2%nat (Registry.add "k" 1%nat Registry.empty) in
  Registry.get "k" (Registry.remove "k" 2%nat m) = Some 1%nat.
Proof.
  intros m. apply (remove_other_keeps_holder m "k" 1%nat 2%nat).
  - reflexivity.
  - lia.
Defined.

(** X14: removing the holder makes the next oldest element the holder, or
    drops the key when none is left, and queues one notification from the
    old holder to the new one. *)
Theorem remove_holder_promotes_next
    (m : Registry.RefManager) (k : string) (el : nat) (rest : list nat) :
  Registry.refMap m !! k = Some (el :: rest) → NoDup (el :: rest) →
  Registry.get k (Registry.remove k el m) = head rest ∧
  Registry.refMap (Registry.remove k el m) !! k
    = (if rest is [] then None else Some rest) ∧
  Registry.microtasks (Registry.remove k el m)
    = Registry.microtasks m ++ [Registry.NotifyTask k (Some el) (head rest)].
Proof.
  intros Hk [Hel _]%NoDup_cons.
  assert (Registry.get k m = Some el) as Hget
    by (unfold Registry.get; by rewrite Hk).
  assert (Registry.Set_delete el (el :: rest) = rest) as Hdel.
  { unfold Registry.Set_delete. rewrite filter_cons.
    rewrite decide_False by (intros Hne; by apply Hne).
    by apply Set_delete_absent. }
  unfold Registry.remove. rewrite Hk, Hget, Hdel.
  rewrite (bool_decide_eq_true_2 (Some el = Some el)) by done.
  destruct rest as [|next rest]; simpl.
  - unfold Registry.get. simpl. by rewrite lookup_delete_eq.
  - unfold Registry.get. simpl. by rewrite lookup_insert_eq.
Qed.

Lemma remove_holder_promotes_next_witness :
  let m := Registry.add "k" 2%nat (Registry.add "k" 1%nat Registry.empty) in
  Registry.get "k" (Registry.remove "k" 1%nat m) = Some 2%nat.
Proof.
  intros m.
  destruct (remove_holder_promotes_next m "k" 1%nat [2%nat]) as (Hget & _).
  - reflexivity.
  - apply NoDup_cons. split; [|apply NoDup_singleton].
    intros [=]%list_elem_of_singleton.
  - exact Hget.
Defined.

(** X15: registering an element that was not registered under the key and
    removing it again gives back the registrations as they were. *)
Theorem add_remove_restores_refMap
    (m : Registry.RefManager) (k : string) (el : nat) :
  Registry.settled_sets m →
  (∀ refs, Registry.refMap m !! k = Some refs → el ∉ refs) →
  Registry.refMap (Registry.remove k el (Registry.add k el m)) = Registry.refMap m.
Proof.
  intros [Hr _] Hnew. unfold Registry.add.
  destruct (Registry.refMap m !! k) as [refs|] eqn:E.
  - destruct (Hr k refs E) as [Hne _]. specialize (Hnew refs eq_refl).
    unfold Registry.remove. simpl. rewrite lookup_insert_eq.
    rewrite (Set_delete_add el refs Hnew).
    rewrite (bool_decide_eq_false_2 (length refs = 0%nat)) by (by destruct refs).
    assert (Registry.refMap (Registry.set_refMap
              (<[k := refs]> (<[k := Registry.Set_add el refs]> (Registry.refMap m)))
              (Registry.set_refMap (<[k := Registry.Set_add el refs]> (Registry.refMap m)) m))
            = Registry.refMap m) as Hsame.
    { simpl. rewrite insert_insert_eq. by apply insert_id. }
    by case_match.
  - unfold Registry.remove. simpl. rewrite lookup_insert_eq.
    unfold Registry.Set_delete. rewrite filter_cons, filter_nil.
    rewrite decide_False by (intros Hne; by apply Hne). simpl.
    unfold Registry.get. simpl. rewrite lookup_insert_eq. simpl.
    rewrite bool_decide_eq_true_2 by done. simpl.
    rewrite delete_insert_eq. by apply delete_id.
Qed.

Lemma add_remove_restores_refMap_witness :
  let m := Registry.add "k" 1%nat Registry.empty in
  Registry.refMap (Registry.remove "k" 2%nat (Registry.add "k" 2%nat m))
  = Registry.refMap m.
Proof.
  intros m. apply (add_remove_restores_refMap m "k" 2%nat).
  - split; [|apply map_Forall_empty].
    apply map_Forall_singleton. split; [done|apply NoDup_singleton].
  - intros refs Hrefs. vm_compute in Hrefs. injection Hrefs as <-.
    intros [=]%list_elem_of_singleton.
Defined.

Section ListenerFacts.
Import Registry.
Implicit Types (m : RefManager).

Lemma on_state m (k : string) (fn : nat) :
  refMap (on k fn m) = refMap m ∧
  calls (on k fn m) = calls m ∧
  microtasks (on k fn m) = microtasks m ++ [ListenerTask fn None (get k m)] ∧
  listenerMap (on k fn m)
  = <[k := match listenerMap m !! k with
           | Some listeners => Set_add fn listeners
           | None => [fn]
           end]> (listenerMap m).
Proof. unfold on. by destruct (listenerMap m !! k). Qed.

Lemma heard_one (fn fn' : nat) (c : list (nat * (option nat * option nat)))
    (o n : option nat) :
  map snd (filter (λ c : nat * (option nat * option nat), c.1 = fn) (c ++ [(fn', (o, n))]))
  = map snd (filter (λ c : nat * (option nat * option nat), c.1 = fn) c)
    ++ (if decide (fn' = fn) then [(o, n)] else []).
Proof.
  rewrite filter_app, map_app, filter_cons, filter_nil. simpl.
  by destruct (decide (fn' = fn)).
Qed.

End ListenerFacts.

(** X16: subscribing while no microtask is pending makes the new listener
    hear, at the next checkpoint, one replay call (absent, current holder)
    and nothing else; the other listeners hear nothing. *)
Theorem on_replays_once
    (throws : list (nat * (option nat * option nat)) →
              nat * (option nat * option nat) → bool)
    (m : Registry.RefManager) (k : string) (fn : nat) :
  Registry.microtasks m = [] →
  Registry.heard fn (Registry.checkpoint throws (Registry.on k fn m))
  = Registry.heard fn m ++ [(None, Registry.get k m)] ∧
  ∀ other : nat, other ≠ fn →
    Registry.heard other (Registry.checkpoint throws (Registry.on k fn m))
    = Registry.heard other m.
Proof.
  intros Hq. destruct (on_state m k fn) as (_ & Hc & Hm & _).
  set (m' := Registry.on k fn m) in *. clearbody m'.
  unfold Registry.checkpoint, Registry.heard.
  rewrite Hm, Hq. simpl. rewrite Hc. split.
  - rewrite heard_one. by rewrite decide_True.
  - intros other Hne. rewrite heard_one.
    rewrite decide_False by done. by rewrite app_nil_r.
Qed.

Lemma on_replays_once_witness :
  let throws := λ (made : list (nat * (option nat * option nat)))
                  (call : nat * (option nat * option nat)), true in
  let m := Registry.checkpoint throws (Registry.add "k" 1%nat Registry.empty) in
  Registry.heard 7%nat (Registry.checkpoint throws (Registry.on "k" 7%nat m))
  = [(None, Some 1%nat)].
Proof.
  intros throws m. destruct (on_replays_once throws m "k" 7%nat) as [Hfn _].
  - reflexivity.
  - exact Hfn.
Defined.

(** X17: a listener subscribed in the same synchronous run as the first
    registration under a key hears (absent, A) twice at the checkpoint, once
    from the queued notification and once from its own replay, when no
    other listener that the key already had throws on that notification
    (so always when it is the only listener of the key). *)
Theorem add_then_on_hears_twice
    (throws : list (nat * (option nat * option nat)) →
              nat * (option nat * option nat) → bool)
    (m : Registry.RefManager) (k : string) (A fn : nat) :
  Registry.settled_sets m → Registry.microtasks m = [] →
  Registry.refMap m !! k = None →
  (∀ made g ls, Registry.listenerMap m !! k = Some ls → g ∈ ls → g ≠ fn →
     throws made (g, (None, Some A)) = false) →
  Registry.heard fn
    (Registry.checkpoint throws (Registry.on k fn (Registry.add k A m)))
  = Registry.heard fn m ++ [(None, Some A); (None, Some A)].
Proof.
  intros [_ Hl] Hq Hk Hquiet.
  set (m1 := Registry.add k A m).
  assert (Registry.listenerMap m1 = Registry.listenerMap m ∧
          Registry.calls m1 = Registry.calls m ∧
          Registry.microtasks m1 = [Registry.NotifyTask k None (Some A)] ∧
          Registry.get k m1 = Some A) as (Hl1 & Hc1 & Hq1 & Hg1).
  { unfold m1, Registry.add, Registry.get. rewrite Hk. simpl.
    by rewrite Hq, lookup_insert_eq. }
  destruct (on_state m1 k fn) as (_ & Hc & Hm & Hls).
  set (m2 := Registry.on k fn m1) in *. clearbody m2.
  unfold Registry.checkpoint, Registry.heard.
  rewrite Hm, Hq1, Hg1. simpl. unfold Registry.notify.
  rewrite Hls, lookup_insert_eq, Hc, Hc1, Hl1.
  rewrite heard_one, decide_True by done.
  rewrite filter_app, map_app, <- app_assoc. f_equal.
  set (ls' := match Registry.listenerMap m !! k with
              | Some listeners => Registry.Set_add fn listeners
              | None => [fn]
              end).
  assert (NoDup ls') as Hnd.
  { unfold ls'. destruct (Registry.listenerMap m !! k) as [ls|] eqn:E;
      [|apply NoDup_singleton].
    apply Set_add_NoDup. by destruct (Hl k ls E). }
  assert (fn ∈ ls') as Hin.
  { unfold ls'. destruct (Registry.listenerMap m !! k) as [ls|];
      [apply Set_add_elem|left]. }
  destruct (list_elem_of_split _ _ Hin) as (before & after & Hsplit).
  rewrite Hsplit in Hnd |- *.
  rewrite forEach_heard_once; [done..|].
  intros made g Hg.
  assert (g ≠ fn) as Hne.
  { intros ->. apply NoDup_app in Hnd as (_ & Hdisj & _).
    apply (Hdisj fn Hg). left. }
  assert (g ∈ ls') as Hg' by (rewrite Hsplit; apply elem_of_app; by left).
  unfold ls' in Hg'. destruct (Registry.listenerMap m !! k) as [ls|] eqn:E.
  - apply (Hquiet made g ls eq_refl); [|done].
    unfold Registry.Set_add in Hg'. case_bool_decide; [done|].
    apply elem_of_app in Hg' as [?|Hg']; [done|].
    by apply list_elem_of_singleton in Hg'.
  - by apply list_elem_of_singleton in Hg'.
Qed.

Lemma add_then_on_hears_twice_witness :
  let throws := λ (made : list (nat * (option nat * option nat)))
                  (call : nat * (option nat * option nat)), true in
  Registry.heard 7%nat
    (Registry.checkpoint throws
       (Registry.on "k" 7%nat (Registry.add "k" 1%nat Registry.empty)))
  = [(None, Some 1%nat); (None, Some 1%nat)].
Proof.
  intros throws.
  apply (add_then_on_hears_twice throws Registry.empty "k" 1%nat 7%nat).
  - split; apply map_Forall_empty.
  - reflexivity.
  - reflexivity.
  - intros made g ls Hls. by vm_compute in Hls.
Defined.

(** X18: after [off] a notification for the key no longer calls the
    listener. *)
Theorem off_silences
    (throws : list (nat * (option nat * option nat)) →
              nat * (option nat * option nat) → bool)
    (m : Registry.RefManager) (k : string) (fn : nat) (o n : option nat) :
  fn ∉ (Registry.notify throws k o n (Registry.off k fn m)).*1.
Proof.
  unfold Registry.off, Registry.notify.
  destruct (Registry.listenerMap m !! k) as [ls|] eqn:E.
  - case_bool_decide; simpl.
    + rewrite lookup_delete_eq. apply not_elem_of_nil.
    + rewrite lookup_insert_eq.
      destruct (forEach_take throws (Registry.Set_delete fn ls) (o, n) (Registry.calls m))
        as [i ->].
      intros ([f c] & -> & Hin)%list_elem_of_fmap.
      apply list_elem_of_fmap in Hin as (f' & [= -> _] & Hin).
      simpl in Hin. apply subseteq_take in Hin.
      by apply Set_delete_gone in Hin.
  - rewrite E. apply not_elem_of_nil.
Qed.

(** X19: subscribing a listener that was not subscribed under the key and
    unsubscribing it again gives back the listeners as they were. *)
Theorem on_off_restores_listenerMap
    (m : Registry.RefManager) (k : string) (fn : nat) :
  Registry.settled_sets m →
  (∀ ls, Registry.listenerMap m !! k = Some ls → fn ∉ ls) →
  Registry.listenerMap (Registry.off k fn (Registry.on k fn m))
  = Registry.listenerMap m.
Proof.
  intros [_ Hl] Hnew. destruct (on_state m k fn) as (_ & _ & _ & Hls).
  set (m' := Registry.on k fn m) in *. clearbody m'.
  unfold Registry.off. rewrite Hls, lookup_insert_eq.
  destruct (Registry.listenerMap m !! k) as [ls|] eqn:E.
  - destruct (Hl k ls E) as [Hne _]. specialize (Hnew ls eq_refl).
    rewrite (Set_delete_add fn ls Hnew).
    rewrite bool_decide_eq_false_2 by (by destruct ls). simpl.
    rewrite insert_insert_eq. by apply insert_id.
  - unfold Registry.Set_delete. rewrite filter_cons, filter_nil.
    rewrite decide_False by (intros Hne; by apply Hne). simpl.
    rewrite delete_insert_eq. by apply delete_id.
Qed.

Lemma on_off_restores_listenerMap_witness :
  Registry.listenerMap (Registry.off "k" 7%nat (Registry.on "k" 7%nat Registry.empty))
  = Registry.listenerMap Registry.empty.
Proof.
  apply (on_off_restores_listenerMap Registry.empty "k" 7%nat).
  - split; apply map_Forall_empty.
  - intros ls Hls. by vm_compute in Hls.
Defined.

(** ** The abort multiplexer and the response handler *)

Section Multiplexer.

Lemma bump_iter (j : nat) (mux : AbortControllerMux) :
  _count (Nat.iter j bump mux) = _count mux + Z.of_nat j ∧
  signal_aborted (Nat.iter j bump mux) = signal_aborted mux ∧
  super_aborts (Nat.iter j bump mux) = super_aborts mux.
Proof.
  induction j as [|j (Hc & Hs & Ha)]; [simpl; split_and!; [lia|done..]|].
  rewrite Nat.iter_succ. unfold bump at 1 3 5. simpl. split_and!; [lia|done..].
Qed.

Lemma omap_all_strings (items : list (option string)) :
  forallb (λ p, bool_decide (is_Some p)) items = true →
  length (omap id items) = length items.
Proof.
  induction items as [|[s|] items IH]; [done| |done].
  intros Hall. simpl in Hall.
  change (omap id (Some s :: items)) with (s :: omap id items).
  simpl. by rewrite IH.
Qed.

End Multiplexer.

(** X20: after [j] calls of [bump] and then [c] calls of [abort] on a new
    multiplexer the counter is 1 + j - c, the signal is on exactly when
    c exceeds j, and [super.abort] has run c - j times (never, while
    c does not exceed j): once the counter is at zero, each further
    [abort] runs [super.abort] again. *)
Theorem mux_counter_law (j c : nat) :
  let mux := Nat.iter c abort (Nat.iter j bump new_AbortControllerMux) in
  _count mux = 1 + Z.of_nat j - Z.of_nat c ∧
  signal_aborted mux = bool_decide (j < c)%nat ∧
  super_aborts mux = (c - j)%nat.
Proof.
  destruct (bump_iter j new_AbortControllerMux) as (Hc & Hs & Ha).
  simpl in Hc, Hs, Ha. cbv zeta.
  induction c as [|c (IHc & IHs & IHa)].
  - simpl. rewrite Hc, Hs, Ha. split_and!; [lia|done..].
  - rewrite Nat.iter_succ. unfold abort at 1 3 5.
    rewrite IHc, IHs, IHa.
    destruct (Z.leb_spec (1 + Z.of_nat j - Z.of_nat c - 1) 0); simpl.
    + split_and!; [lia| |lia]. by rewrite bool_decide_eq_true_2 by lia.
    + split_and!; [lia| |lia].
      by rewrite !bool_decide_eq_false_2 by lia.
Qed.

(** X21: a gender that the response handler fulfils with has at least a
    subject and an object slot, whether it came from a code of the table
    or from a remote tuple. *)
Theorem fulfilled_gender_has_two_slots (response : Response) (gender : Gender) :
  onResponse response = Fulfilled gender →
  (2 ≤ length (Cache.pronouns gender))%nat.
Proof.
  unfold onResponse. destruct (ok response); [|done].
  destruct (json response) as [| |code|items|]; try done.
  - destruct (lookupPronouns code) as [p|] eqn:E; [|done].
    intros [= <-]. simpl.
    apply lookupPronouns_in_table, table_entries_full in E. lia.
  - destruct (2 <=? length items)%nat eqn:Hlen; [|done]. simpl.
    destruct (forallb _ items) eqn:Hall; [|done].
    intros [= <-]. simpl. unfold words.
    rewrite length_map, (omap_all_strings items Hall).
    by apply Nat.leb_le.
Qed.

Lemma fulfilled_gender_has_two_slots_witness :
  (2 ≤ length (words ["xe"; "xem"]))%nat.
Proof.
  apply (fulfilled_gender_has_two_slots
           {| ok := true; status := 200; statusText := "OK";
              json := PronounsArray [Some "xe"; Some "xem"] |}
           {| Cache.pronouns := words ["xe"; "xem"] |}).
  reflexivity.
Defined.

(** X22: whatever a transport responds, the element that awaits it
    dispatches exactly one event once the promise settles: "genderupdated"
    with the loaded entry, or "error"; no response is dropped silently. *)
Theorem response_gives_one_event (response : Response) (this : PIdElement) :
  ∃ e : DomEvent,
    dispatched (onSettled (onResponse response) this) = dispatched this ++ [e] ∧
    match onResponse response with
    | Fulfilled gender =>
        e = genderupdated {| identity := _value this;
                             pronouns_of := Some (Cache.pronouns gender) |} ∧
        loadedPronouns (onSettled (onResponse response) this)
        = Some (Cache.pronouns gender)
    | Rejected err => e = error err ∧ err ≠ AbortError
    | Pending => False
    end.
Proof.
  unfold onResponse. destruct (ok response); [|by eexists].
  destruct (json response) as [| |code|items|]; try by eexists.
  - destruct (lookupPronouns code); by eexists.
  - destruct (_ && _); by eexists.
Qed.

(** ** The cache over time *)

Section Finality.
Implicit Types (w : World) (rs : list Request) (q : Request) (r : nat)
  (sel : Request → PromiseState).

(** The two readings of a request a promise can stand for. *)
Lemma stateOf_reading (p : PromiseRef) :
  ∃ r sel,
    (∀ w, stateOf p w = from_option sel Pending (requests w !! r)) ∧
    (∀ q, sel q ≠ Pending → sel (onAbort q) = sel q) ∧
    (∀ q o, sel q ≠ Pending → sel (complete o q) = sel q) ∧
    (∀ q, sel (bumpRequest q) = sel q).
Proof.
  destruct p as [r|r].
  - exists r, (λ q, promiseOf (transport q)). split_and!; try done.
    + intros q. unfold onAbort. simpl. by destruct (transport q).
    + intros q o. unfold complete.
      destruct (transport q) eqn:E; simpl; rewrite ?E; done.
  - exists r, raced. split_and!; try done.
    + intros q. unfold onAbort. simpl. by destruct (raced q).
    + intros q o. unfold complete.
      destruct (transport q); try done. simpl. by destruct (raced q).
Qed.

Lemma alter_keeps_settled sel (f : Request → Request) (i r : nat) rs :
  (∀ q, sel q ≠ Pending → sel (f q) = sel q) →
  from_option sel Pending (rs !! r) ≠ Pending →
  from_option sel Pending (alter f i rs !! r) = from_option sel Pending (rs !! r).
Proof.
  intros Hf Hs. destruct (decide (i = r)) as [->|Hne].
  - rewrite list_lookup_alter_eq. destruct (rs !! r) as [q|]; [|done].
    simpl in *. by apply Hf.
  - by rewrite list_lookup_alter_ne.
Qed.

Lemma runListeners_keeps_settled sel (signal r : nat) (ls : list (nat * nat)) rs :
  (∀ q, sel q ≠ Pending → sel (onAbort q) = sel q) →
  from_option sel Pending (rs !! r) ≠ Pending →
  from_option sel Pending (runListeners signal ls rs !! r)
  = from_option sel Pending (rs !! r).
Proof.
  intros Hf. revert rs. induction ls as [|l ls IH]; intros rs Hs; [done|].
  change (runListeners signal (l :: ls) rs)
    with (runListeners signal ls
            (if bool_decide (l.1 = signal) then alter onAbort l.2 rs else rs)).
  case_bool_decide; [|by apply IH].
  rewrite IH; rewrite alter_keeps_settled; done.
Qed.

Lemma step_keeps_settled (p : PromiseRef) w (e : Event) :
  stateOf p w ≠ Pending → stateOf p (step w e) = stateOf p w.
Proof.
  destruct (stateOf_reading p) as (r & sel & Hsel & Habort & Hcomplete & Hbump).
  rewrite !Hsel. intros Hs.
  destruct e as [source signal|signal|r' o]; simpl.
  - unfold fetch. destruct (genderRequests w !! source) as [r'|]; simpl.
    + destruct (decide (r' = r)) as [->|Hne].
      * rewrite list_lookup_alter_eq. destruct (requests w !! r); [|done].
        simpl. apply Hbump.
      * by rewrite list_lookup_alter_ne.
    + rewrite lookup_app_l; [done|].
      apply lookup_lt_is_Some. by destruct (requests w !! r).
  - unfold fire. case_bool_decide; [done|]. simpl.
    by apply runListeners_keeps_settled.
  - apply alter_keeps_settled; [|done]. intros q. apply Hcomplete.
Qed.

End Finality.

(** X25: a promise of the cache that has settled keeps its state through
    every later call of [fetch], every signal that fires and every
    transport that settles. *)
Theorem settled_promise_is_final (p : PromiseRef) (w : World) (es : list Event) :
  stateOf p w ≠ Pending → stateOf p (run es w) = stateOf p w.
Proof.
  revert w. induction es as [|e es IH]; intros w Hs; [done|].
  simpl. rewrite IH; rewrite step_keeps_settled; done.
Qed.

Lemma settled_promise_is_final_witness :
  let w := run [Fetch "u" 1; Settle 0 Failed] init in
  stateOf (RacePromise 0) (run [Fire 1; Fetch "u" 2; Settle 0 Aborted] w)
  = stateOf (RacePromise 0) w.
Proof.
  intros w. apply settled_promise_is_final. by vm_compute.
Defined.

Section AbortedOnce.
Implicit Types (w : World) (q : Request) (r s : nat) (ls : list (nat * nat)).

Lemma one_listener_one_signal ls (s s' r : nat) :
  NoDup ls.*2 → (s, r) ∈ ls → (s', r) ∈ ls → s = s'.
Proof.
  induction ls as [|[s0 r0] ls IH]; intros Hnd Hs Hs'; [by apply elem_of_nil in Hs|].
  rewrite fmap_cons in Hnd. apply NoDup_cons in Hnd as [Hr0 Hnd]. simpl in Hr0.
  apply elem_of_cons in Hs as [Hs|Hs];
    apply elem_of_cons in Hs' as [Hs'|Hs']; simplify_eq; try done.
  - exfalso. apply Hr0, list_elem_of_fmap. by exists (s', r0).
  - exfalso. apply Hr0, list_elem_of_fmap. by exists (s, r0).
  - by apply IH.
Qed.

(** While the signal a request listens to has not fired, [super.abort] has
    not run on the request's multiplexer, and it never runs twice. *)
Lemma step_aborted_once w (e : Event) :
  listeners_in_range w → NoDup (listeners w).*2 →
  (∀ s r q, (s, r) ∈ listeners w → requests w !! r = Some q →
     (s ∉ aborted_signals w → super_aborts (abortMux q) = 0%nat) ∧
     (super_aborts (abortMux q) ≤ 1)%nat) →
  ∀ s r q, (s, r) ∈ listeners (step w e) → requests (step w e) !! r = Some q →
    (s ∉ aborted_signals (step w e) → super_aborts (abortMux q) = 0%nat) ∧
    (super_aborts (abortMux q) ≤ 1)%nat.
Proof.
  intros Hrange Hnd Hw s r q.
  destruct e as [source signal|signal|r' o]; simpl.
  - unfold fetch. destruct (genderRequests w !! source) as [r'|]; simpl.
    + intros Hl Hq. destruct (decide (r' = r)) as [->|Hne].
      * rewrite list_lookup_alter_eq in Hq.
        destruct (requests w !! r) as [q0|] eqn:E; [|done].
        injection Hq as <-. by apply (Hw s r q0).
      * rewrite list_lookup_alter_ne in Hq by done. by apply (Hw s r q).
    + intros [Hl|Hl]%elem_of_app Hq.
      * unfold listeners_in_range in Hrange. rewrite Forall_forall in Hrange.
        pose proof (Hrange _ Hl) as Hlt. simpl in Hlt.
        rewrite lookup_app_l in Hq by done. by apply (Hw s r q).
      * apply list_elem_of_singleton in Hl as [= -> ->].
        rewrite list_lookup_middle in Hq by done. injection Hq as <-.
        simpl. split; [done|lia].
  - unfold fire. case_bool_decide as Hfired; [apply Hw|]. simpl.
    intros Hl. rewrite runListeners_lookup by done.
    case_bool_decide as Hhit.
    + pose proof (one_listener_one_signal _ _ _ _ Hnd Hl Hhit) as ->.
      destruct (requests w !! r) as [q0|] eqn:E; [|done].
      intros [= <-]. destruct (Hw signal r q0 Hl E) as [Hzero _].
      split.
      * intros Hnot. exfalso. apply Hnot, elem_of_union. left.
        by apply elem_of_singleton.
      * unfold onAbort, abort. simpl. rewrite (Hzero Hfired).
        destruct (_ <=? 0); simpl; lia.
    + intros Hq. destruct (Hw s r q Hl Hq) as [Hzero Hle]. split; [|done].
      intros Hnot. apply Hzero. intros Hin. apply Hnot, elem_of_union. by right.
  - intros Hl Hq. unfold settle in Hq. simpl in Hq.
    destruct (decide (r' = r)) as [->|Hne].
    + rewrite list_lookup_alter_eq in Hq.
      destruct (requests w !! r) as [q0|] eqn:E; [|done].
      injection Hq as <-.
      assert (abortMux (complete o q0) = abortMux q0) as ->
        by (unfold complete; by destruct (transport q0)).
      by apply (Hw s r q0).
    + rewrite list_lookup_alter_ne in Hq by done. by apply (Hw s r q).
Qed.

(** Each request has a listener: the one its first caller's signal got. *)
Lemma step_has_listener w (e : Event) :
  (∀ r, (r < length (requests w))%nat → ∃ s, (s, r) ∈ listeners w) →
  ∀ r, (r < length (requests (step w e)))%nat → ∃ s, (s, r) ∈ listeners (step w e).
Proof.
  intros Hw r. destruct e as [source signal|signal|r' o]; simpl.
  - unfold fetch. destruct (genderRequests w !! source) as [r'|]; simpl.
    + rewrite length_alter. apply Hw.
    + rewrite length_app. simpl. intros Hlt.
      destruct (decide (r < length (requests w))%nat) as [Hold|Hnew].
      * destruct (Hw r Hold) as [s Hs]. exists s. apply elem_of_app. by left.
      * assert (r = length (requests w)) as -> by lia.
        exists signal. apply elem_of_app. right. left.
  - rewrite fire_length, fire_listeners. apply Hw.
  - unfold settle. simpl. rewrite length_alter. apply Hw.
Qed.

End AbortedOnce.

(** X26: in every state the cache can reach, [super.abort] has run at most
    once on the multiplexer of each request, so no transport is aborted
    twice: the listener that calls [abort] is added to one signal, which
    fires once. *)
Theorem transport_aborted_at_most_once (w : World) (r : nat) (q : Request) :
  reachable w → requests w !! r = Some q →
  (super_aborts (abortMux q) ≤ 1)%nat.
Proof.
  intros Hw Hq.
  assert ((∀ s r q, (s, r) ∈ listeners w → requests w !! r = Some q →
             (s ∉ aborted_signals w → super_aborts (abortMux q) = 0%nat) ∧
             (super_aborts (abortMux q) ≤ 1)%nat) ∧
          (∀ r, (r < length (requests w))%nat → ∃ s, (s, r) ∈ listeners w))
    as [Hinv Hhas].
  { clear r q Hq. induction Hw as [|w e Hw [IH1 IH2]].
    - split; [intros s r q Hl; by apply elem_of_nil in Hl|].
      intros r Hr. simpl in Hr. lia.
    - split.
      + apply step_aborted_once; [by apply reachable_listeners_in_range| |done].
        by apply reachable_one_listener.
      + by apply step_has_listener. }
  destruct (Hhas r) as [s Hs]; [by eapply lookup_lt_Some|].
  by destruct (Hinv s r q Hs Hq).
Qed.

Lemma transport_aborted_at_most_once_witness :
  (super_aborts
     (abortMux
        {| uri := "u";
           abortMux := {| _count := 1; signal_aborted := true; super_aborts := 1 |};
           transport := Aborted;
           abortPromise := Rejected AbortError;
           raced := Rejected AbortError |}) ≤ 1)%nat.
Proof.
  apply (transport_aborted_at_most_once
           (run [Fetch "u" 1; Fire 1; Fetch "u" 2; Fire 2; Fire 1] init) 0).
  - apply (reachable_step _ (Fire 1)), (reachable_step _ (Fire 2)),
      (reachable_step _ (Fetch "u" 2)), (reachable_step _ (Fire 1)),
      (reachable_step _ (Fetch "u" 1)), reachable_init.
  - reflexivity.
Defined.

Section Sources.
Implicit Types (w : World) (rs : list Request).

Lemma alter_keeps_uri (f : Request → Request) (i : nat) rs :
  (∀ q, uri (f q) = uri q) → uri <$> alter f i rs = uri <$> rs.
Proof.
  intros Hf. apply list_eq. intros j. rewrite !list_lookup_fmap.
  destruct (decide (i = j)) as [->|Hne].
  - rewrite list_lookup_alter_eq. destruct (rs !! j); [|done]. simpl. by rewrite Hf.
  - by rewrite list_lookup_alter_ne.
Qed.

Lemma runListeners_keeps_uri (signal : nat) (ls : list (nat * nat)) rs :
  uri <$> runListeners signal ls rs = uri <$> rs.
Proof.
  revert rs. induction ls as [|l ls IH]; intros rs; [done|].
  change (runListeners signal (l :: ls) rs)
    with (runListeners signal ls
            (if bool_decide (l.1 = signal) then alter onAbort l.2 rs else rs)).
  rewrite IH. case_bool_decide; [|done]. by apply alter_keeps_uri.
Qed.

Lemma step_uris w (e : Event) :
  uri <$> requests (step w e)
  = match e with
    | Fetch source _ =>
        if genderRequests w !! source is Some _ then uri <$> requests w
        else (uri <$> requests w) ++ [source]
    | _ => uri <$> requests w
    end.
Proof.
  destruct e as [source signal|signal|r o]; simpl.
  - unfold fetch. destruct (genderRequests w !! source); simpl.
    + by apply alter_keeps_uri.
    + by rewrite fmap_app.
  - unfold fire. case_bool_decide; [done|]. simpl. apply runListeners_keeps_uri.
  - apply alter_keeps_uri. intros q. unfold complete. by destruct (transport q).
Qed.

Lemma step_index w (e : Event) :
  (∀ (u : string) (r : nat),
     genderRequests w !! u = Some r ↔ (uri <$> requests w) !! r = Some u) →
  ∀ (u : string) (r : nat),
    genderRequests (step w e) !! u = Some r ↔
    (uri <$> requests (step w e)) !! r = Some u.
Proof.
  intros Hw u r. rewrite step_uris.
  destruct e as [source signal|signal|r' o]; simpl.
  - unfold fetch. destruct (genderRequests w !! source) as [r'|] eqn:E; simpl;
      [apply Hw|].
    rewrite <- (length_fmap uri (requests w)).
    destruct (decide (source = u)) as [->|Hne].
    + rewrite lookup_insert_eq. split.
      * intros [= <-]. by rewrite list_lookup_middle.
      * intros Hr. f_equal.
        destruct (decide (r < length (uri <$> requests w))%nat) as [Hlt|Hge].
        -- rewrite lookup_app_l in Hr by done. apply Hw in Hr. congruence.
        -- apply lookup_lt_Some in Hr. rewrite length_app in Hr. simpl in Hr. lia.
    + rewrite lookup_insert_ne by done. rewrite Hw. split.
      * intros Hr. rewrite lookup_app_l; [done|]. by eapply lookup_lt_Some.
      * intros Hr.
        destruct (decide (r < length (uri <$> requests w))%nat) as [Hlt|Hge].
        -- by rewrite lookup_app_l in Hr.
        -- rewrite lookup_app_r in Hr by lia.
           destruct (r - length (uri <$> requests w))%nat; [|done].
           simpl in Hr. congruence.
  - rewrite fire_genderRequests. apply Hw.
  - apply Hw.
Qed.

End Sources.

(** X27: in every state the cache can reach, the request map is the index
    of the transport requests made so far: a source maps to a position
    exactly when the request at that position is for that source.  So no
    two transport requests were ever made for one source. *)
Theorem one_transport_per_source (w : World) :
  reachable w →
  (∀ (u : string) (r : nat),
     genderRequests w !! u = Some r ↔ (uri <$> requests w) !! r = Some u) ∧
  NoDup (uri <$> requests w).
Proof.
  intros Hw.
  assert (∀ (u : string) (r : nat),
            genderRequests w !! u = Some r ↔ (uri <$> requests w) !! r = Some u) as Hidx.
  { induction Hw as [|w e _ IH]; [|by apply step_index].
    intros u r. simpl. rewrite lookup_empty. split; [done|].
    by rewrite lookup_nil. }
  split; [done|].
  apply NoDup_alt. intros i j u Hi%Hidx Hj%Hidx. congruence.
Qed.

Lemma one_transport_per_source_witness :
  NoDup (uri <$> requests (run [Fetch "u" 1; Fetch "v" 2; Fetch "u" 3] init)).
Proof.
  apply (one_transport_per_source (run [Fetch "u" 1; Fetch "v" 2; Fetch "u" 3] init)).
  apply (reachable_step _ (Fetch "u" 3)), (reachable_step _ (Fetch "v" 2)),
    (reachable_step _ (Fetch "u" 1)), reachable_init.
Defined.

(** ** Loading, again *)

Section Reloading.
Implicit Types (this : PIdElement) (w : World) (src : string).

(** The first load of a remote source by an element that has no load in
    progress, over a cache that does not know the source. *)
Lemma _loadGender_first src (c : nat) this w :
  String.index 0 ":" src = Some c → _abortController this = None →
  genderRequests w !! src = None →
  ∃ this0,
    awaited this0 = awaited this ∧
    _loadGender src (this, w)
    = (await (RacePromise (length (requests w)))
         (set_abortController (Some (next_signal w)) this0),
       {| genderRequests := <[src := length (requests w)]> (genderRequests w);
          requests := requests w ++ [newRequest src];
          listeners := listeners w ++ [(next_signal w, length (requests w))];
          aborted_signals := aborted_signals w;
          next_signal := S (next_signal w) |}).
Proof.
  intros Hidx Hctl Hu.
  exists (if String.eqb (substring 0 c src) ""
          then _emitGenderError (UnknownGenderSource src) this else this).
  split; [by case_match|].
  unfold _loadGender, _cancelGender. rewrite Hctl, Hidx.
  unfold new_AbortController, fetch. simpl. by rewrite Hu.
Qed.

(** A load of a remote source, in terms of the call of [fetch] it makes. *)
Lemma _loadGender_remote src (c : nat) this w :
  String.index 0 ":" src = Some c →
  let w0 := (_cancelGender (this, w)).2 in
  let res := fetch src (next_signal w0) w0 in
  let st := _loadGender src (this, w) in
  awaited st.1 = awaited this ++ [res.1] ∧
  requests st.2 = requests res.2 ∧
  genderRequests st.2 = genderRequests res.2.
Proof.
  intros Hidx. cbv zeta. unfold _loadGender.
  pose proof (_cancelGender_element this w) as (_ & Ha & _).
  destruct (_cancelGender (this, w)) as [this0 w0]. simpl in Ha.
  rewrite Hidx. unfold new_AbortController, fetch. simpl.
  destruct (genderRequests w0 !! src); simpl; case_match; simpl; by rewrite Ha.
Qed.

Lemma fire_aborted_signals (signal : nat) w : signal ∈ aborted_signals (fire signal w).
Proof.
  unfold fire. case_bool_decide; [done|]. simpl.
  apply elem_of_union. left. by apply elem_of_singleton.
Qed.

Lemma fetch_aborted_signals src (signal : nat) w :
  aborted_signals (fetch src signal w).2 = aborted_signals w.
Proof. unfold fetch. by destruct (genderRequests w !! src). Qed.

End Reloading.

(** X28: an element that loads a remote source the cache does not know and
    loads the same source again while the transport is in flight aborts
    that transport by cancelling its first load, and is then handed the
    stored promise of the aborted request: both promises it awaits are
    rejected with the abort error, which its handlers ignore, and no second
    transport request is made. *)
Theorem reload_in_flight_is_aborted
    (src : string) (c : nat) (this : PIdElement) (w : World) :
  listeners_in_range w →
  String.index 0 ":" src = Some c → _abortController this = None →
  genderRequests w !! src = None → next_signal w ∉ aborted_signals w →
  let r := length (requests w) in
  let st := _loadGender src (_loadGender src (this, w)) in
  awaited st.1 = awaited this ++ [RacePromise r; SharedPromise r] ∧
  length (requests st.2) = S (length (requests w)) ∧
  (∃ q, requests st.2 !! r = Some q ∧ transport q = Aborted ∧
        super_aborts (abortMux q) = 1%nat) ∧
  stateOf (RacePromise r) st.2 = Rejected AbortError ∧
  stateOf (SharedPromise r) st.2 = Rejected AbortError ∧
  onSettled (stateOf (RacePromise r) st.2) st.1 = st.1 ∧
  onSettled (stateOf (SharedPromise r) st.2) st.1 = st.1.
Proof.
  intros Hrange Hidx Hctl Hu Hfresh r st.
  destruct (_loadGender_first src c this w Hidx Hctl Hu) as (this0 & Haw & Hst1).
  fold r in Hst1.
  set (w1 := (_loadGender src (this, w)).2) in *.
  set (this1 := (_loadGender src (this, w)).1) in *.
  assert (_loadGender src (this, w) = (this1, w1)) as Hpair
    by (unfold this1, w1; by destruct (_loadGender src (this, w))).
  assert (_abortController this1 = Some (next_signal w) ∧
          awaited this1 = awaited this ++ [RacePromise r] ∧
          genderRequests w1 !! src = Some r ∧
          requests w1 = requests w ++ [newRequest src] ∧
          listeners w1 = listeners w ++ [(next_signal w, r)] ∧
          aborted_signals w1 = aborted_signals w)
    as (Hctl1 & Haw1 & Hu1 & Hrs1 & Hls1 & Hab1).
  { unfold this1, w1. rewrite Hst1. simpl.
    by rewrite lookup_insert_eq, Haw. }
  clearbody this1 w1.
  destruct (_loadGender_remote src c this1 w1 Hidx) as (Hawaited & Hreq & _).
  unfold st. rewrite Hpair.
  assert ((_cancelGender (this1, w1)).2 = fire (next_signal w) w1) as Hw0
    by (unfold _cancelGender; by rewrite Hctl1).
  rewrite Hw0 in Hawaited, Hreq.
  unfold fetch in Hawaited, Hreq.
  rewrite fire_genderRequests, Hu1 in Hawaited, Hreq. simpl in Hawaited, Hreq.
  assert (requests (fire (next_signal w) w1) !! r = Some (onAbort (newRequest src))) as Hr.
  { unfold fire. rewrite bool_decide_eq_false_2 by by rewrite Hab1. simpl.
    rewrite Hls1, Hrs1, runListeners_app. unfold runListeners at 1. simpl.
    rewrite bool_decide_eq_true_2 by done.
    rewrite list_lookup_alter_eq, runListeners_other.
    - by rewrite list_lookup_middle.
    - eapply Forall_impl; [exact Hrange|]. intros l Hl. simpl in Hl. unfold r. lia. }
  rewrite Haw1, <- app_assoc in Hawaited. simpl in Hawaited.
  set (st2 := _loadGender src (this1, w1)) in *. clearbody st2.
  assert (requests st2.2 !! r = Some (bumpRequest (onAbort (newRequest src)))) as Hq
    by (by rewrite Hreq, list_lookup_alter_eq, Hr).
  assert (stateOf (RacePromise r) st2.2 = Rejected AbortError) as Hrace
    by (simpl; by rewrite Hq).
  assert (stateOf (SharedPromise r) st2.2 = Rejected AbortError) as Hshared
    by (simpl; by rewrite Hq).
  split_and!; try done.
  - rewrite Hreq, length_alter, fire_length, Hrs1, length_app. simpl. lia.
  - eexists. split; [exact Hq|]. done.
  - by rewrite Hrace.
  - by rewrite Hshared.
Qed.

Lemma reload_in_flight_is_aborted_witness :
  let st := _loadGender "https://x/y" (_loadGender "https://x/y" (new_PIdElement, init)) in
  stateOf (SharedPromise 0) st.2 = Rejected AbortError ∧
  length (requests st.2) = 1%nat.
Proof.
  destruct (reload_in_flight_is_aborted "https://x/y" 5 new_PIdElement init)
    as (_ & Hlen & _ & _ & Hshared & _).
  - apply Forall_nil_2.
  - reflexivity.
  - reflexivity.
  - reflexivity.
  - apply not_elem_of_empty.
  - split; [exact Hshared|exact Hlen].
Defined.

(** X29: whatever source an element loads next, the signal of the load it
    had in progress has fired by the time [_loadGender] returns. *)
Theorem load_cancels_previous
    (src : string) (this : PIdElement) (w : World) (signal : nat) :
  _abortController this = Some signal →
  signal ∈ aborted_signals (_loadGender src (this, w)).2.
Proof.
  intros Hctl. unfold _loadGender, _cancelGender. rewrite Hctl.
  pose proof (fire_aborted_signals signal w) as Hin.
  destruct (String.index 0 ":" src); [|done].
  unfold new_AbortController.
  destruct (fetch src _ _) as [p w'] eqn:E. simpl.
  apply (f_equal snd) in E. simpl in E. subst w'.
  by rewrite fetch_aborted_signals.
Qed.

Lemma load_cancels_previous_witness :
  let st := _loadGender "https://x/y" (new_PIdElement, init) in
  0%nat ∈ aborted_signals (_loadGender "they" st).2.
Proof.
  intros st.
  apply (load_cancels_previous "they" st.1 st.2 0%nat). reflexivity.
Defined.

(** X30: a source without a colon that [lookupPronouns] knows is loaded at
    once: the element takes the entry found, dispatches one
    "genderupdated" event that carries it and no error event, awaits
    nothing, and no transport request is made. *)
Theorem known_constant_is_loaded
    (src : string) (p : Entry) (this : PIdElement) (w : World) :
  String.index 0 ":" src = None → lookupPronouns src = Some p →
  let st := _loadGender src (this, w) in
  loadedPronouns st.1 = Some p ∧
  dispatched st.1
  = dispatched this
    ++ [genderupdated {| identity := _value this; pronouns_of := Some p |}] ∧
  awaited st.1 = awaited this ∧
  _abortController st.1 = None ∧
  length (requests st.2) = length (requests w) ∧
  genderRequests st.2 = genderRequests w.
Proof.
  intros Hcolon Hlookup st. unfold st, _loadGender.
  pose proof (_cancelGender_world this w) as [Hlen Hg].
  pose proof (_cancelGender_element this w) as (Hd & Ha & Hv).
  assert (_abortController (_cancelGender (this, w)).1 = None) as Hc
    by (unfold _cancelGender; by destruct (_abortController this) eqn:E).
  destruct (_cancelGender (this, w)) as [this' w'] eqn:E. simpl in *.
  rewrite Hcolon, Hlookup. simpl.
  split_and!; try done. unfold pronounData. simpl. by rewrite Hd, Hv.
Qed.

Lemma known_constant_is_loaded_witness :
  loadedPronouns (_loadGender "avoid" (new_PIdElement, init)).1
  = Some [NAME; NAME; NAME; NAME; NAME].
Proof.
  destruct (known_constant_is_loaded "avoid" [NAME; NAME; NAME; NAME; NAME]
              new_PIdElement init) as (Hloaded & _).
  - reflexivity.
  - reflexivity.
  - exact Hloaded.
Defined.

Lemma lone_caller_cancel_aborts_witness :
  stateOf (RacePromise 0) (fire 1 (fetch "u" 1 init).2) = Rejected AbortError.
Proof.
  destruct (lone_caller_cancel_aborts init "u" 1) as [Hrace _].
  - apply reachable_init.
  - reflexivity.
  - apply not_elem_of_empty.
  - exact Hrace.
Defined.

Lemma cancel_spares_shared_transport_witness :
  let w := run [Fetch "u" 1; Fetch "u" 2] init in
  ∃ q, requests (fire 1 w) !! 0%nat = Some q ∧ transport q = InFlight.
Proof.
  intros w.
  destruct (cancel_spares_shared_transport w 0 1 (bumpRequest (newRequest "u")))
    as (q & Hq & Ht & _).
  - apply (reachable_step _ (Fetch "u" 2)), (reachable_step _ (Fetch "u" 1)),
      reachable_init.
  - reflexivity.
  - reflexivity.
  - simpl. lia.
  - exists q. split; [exact Hq|exact Ht].
Defined.
